(** * The TVM bot comment builder ([tvm_bot/github_commenter.py])

    A shallow embedding of [BotCommentBuilder]: the location of the bot's own
    comment, the regular-expression scan that recovers the keyed sections of
    its body, the merge of caller-supplied items, the rendering of the new
    body and the single create/update call that publishes it.

    Conventions of the embedding.
    - A Python [str] is a list of Unicode code points ([N]).
    - A [dict] is an association list in insertion order, without duplicate
      keys: assigning an existing key keeps its position, a new key goes last.
    - A raised exception is the [Raise] outcome of the call.
    - The GitHub client is write-only here: a call is the list of requests it
      sends.  Logging is left out. *)

From Stdlib Require Import Ascii String DecimalString.
From Stdlib Require Import List NArith ZArith Bool Lia.
From Stdlib Require DecimalZ.
Import ListNotations.

Local Open Scope N_scope.
Local Open Scope list_scope.

(** ** Strings *)

Definition char := N.
Definition str := list char.

(** A source literal, as its code points. *)
Definition lit (s : string) : str := map N_of_ascii (list_ascii_of_string s).

(** The line feed written [\n] in the source. *)
Definition nl : str := [10].

Fixpoint str_eqb (a b : str) : bool :=
  match a, b with
  | [], [] => true
  | x :: a', y :: b' => (x =? y) && str_eqb a' b'
  | _, _ => false
  end.

(** [str.isspace] on one code point (CPython's [_PyUnicode_IsWhitespace]). *)
Definition isspace (c : char) : bool :=
  ((9 <=? c) && (c <=? 13)) || ((28 <=? c) && (c <=? 32))
  || (c =? 133) || (c =? 160) || (c =? 5760)
  || ((8192 <=? c) && (c <=? 8202))
  || (c =? 8232) || (c =? 8233) || (c =? 8239) || (c =? 8287) || (c =? 12288).

(** Drop the longest prefix (suffix) of characters satisfying [p]. *)
Fixpoint lstrip_by (p : char -> bool) (s : str) : str :=
  match s with
  | [] => []
  | c :: s' => if p c then lstrip_by p s' else s
  end.

Definition rstrip_by (p : char -> bool) (s : str) : str :=
  rev (lstrip_by p (rev s)).

(** [s.strip()] *)
Definition strip (s : str) : str := rstrip_by isspace (lstrip_by isspace s).

(** [s.lstrip(chars)]: [chars] is a set of characters, not a prefix. *)
Definition lstrip (chars : str) (s : str) : str :=
  lstrip_by (fun c => existsb (N.eqb c) chars) s.

(** [s.startswith(l)], returning what follows [l]. *)
Fixpoint strip_prefix (l s : str) : option str :=
  match l, s with
  | [], _ => Some s
  | a :: l', b :: s' => if a =? b then strip_prefix l' s' else None
  | _ :: _, [] => None
  end.

(** [sub in s] *)
Fixpoint str_in (sub s : str) : bool :=
  match strip_prefix sub s with
  | Some _ => true
  | None => match s with
            | [] => false
            | _ :: s' => str_in sub s'
            end
  end.

(** [str(n)] for an integer. *)
Definition str_of_int (z : Z) : str := lit (NilZero.string_of_int (Z.to_int z)).

(** ** A backtracking matcher for the pattern language the module uses

    Literals, one-character classes, a greedy [+] and a lazy [*?] over a
    class, and capture groups that do not nest.  The matcher tries the
    alternatives in the order Python's [re] does, so the groups it reports are
    those of the first successful path. *)

Inductive node :=
| Lit (l : str)
| Cls (p : char -> bool)
| PlusGreedy (p : char -> bool)
| StarLazy (p : char -> bool)
| GOpen
| GClose.

Definition captures := list str.

Section Quantifiers.
Variable p : char -> bool.
(** The rest of the pattern: text of the open group so far, then input. *)
Variable k : str -> str -> option (captures * str).

(** [p*?]: as few characters as the rest of the pattern allows. *)
Fixpoint star_lazy (cur s : str) {struct s} : option (captures * str) :=
  match k cur s with
  | Some r => Some r
  | None =>
      match s with
      | c :: s' => if p c then star_lazy (cur ++ [c]) s' else None
      | [] => None
      end
  end.

(** [p*]: as many characters as possible, giving back one at a time. *)
Fixpoint star_greedy (cur s : str) {struct s} : option (captures * str) :=
  match s with
  | c :: s' =>
      if p c then
        match star_greedy (cur ++ [c]) s' with
        | Some r => Some r
        | None => k cur s
        end
      else k cur s
  | [] => k cur s
  end.

(** [p+] *)
Definition plus_greedy (cur s : str) : option (captures * str) :=
  match s with
  | c :: s' => if p c then star_greedy (cur ++ [c]) s' else None
  | [] => None
  end.
End Quantifiers.

(** [exec pat caps cur s]: match [pat] at the start of [s]; [caps] are the
    groups already closed, [cur] the text consumed since the last [GOpen].
    The result is the closed groups and the input left after the match. *)
Fixpoint exec (pat : list node) (caps : captures) (cur s : str)
  : option (captures * str) :=
  match pat with
  | [] => Some (caps, s)
  | Lit l :: pat' =>
      match strip_prefix l s with
      | Some s' => exec pat' caps (cur ++ l) s'
      | None => None
      end
  | Cls p :: pat' =>
      match s with
      | c :: s' => if p c then exec pat' caps (cur ++ [c]) s' else None
      | [] => None
      end
  | PlusGreedy p :: pat' => plus_greedy p (exec pat' caps) cur s
  | StarLazy p :: pat' => star_lazy p (exec pat' caps) cur s
  | GOpen :: pat' => exec pat' caps [] s
  | GClose :: pat' => exec pat' (caps ++ [cur]) [] s
  end.

(** [re.findall]: leftmost matches, each search resuming where the previous
    match ended.  Every step consumes input, so [S (length s)] steps are
    enough (see [findall_from_enough]). *)
Section Findall.
Variable pat : list node.

Fixpoint findall_from (fuel : nat) (s : str) : list captures :=
  match fuel with
  | O => []
  | S fuel' =>
      match exec pat [] [] s with
      | Some (caps, rest) => caps :: findall_from fuel' rest
      | None =>
          match s with
          | [] => []
          | _ :: s' => findall_from fuel' s'
          end
      end
  end.

Definition findall (s : str) : list captures := findall_from (S (length s)) s.
End Findall.

(** ** Module constants *)

Definition BOT_COMMENT_START : str := lit "<!---bot-comment-->".

Definition WELCOME_TEXT : str :=
  lit "Thanks for contributing to TVM! Please refer to the contributing "
  ++ lit "guidelines https://tvm.apache.org/docs/contribute/ for useful information and tips. "
  ++ lit "Please request code reviews from [Reviewers]("
  ++ lit "https://github.com/apache/incubator-tvm/blob/master/CONTRIBUTORS.md#reviewers) by @-ing them in a comment.".

Definition FOOTER : str :=
  nl ++ nl ++ lit "<sub>Generated by [tvm-bot]("
  ++ lit "https://github.com/apache/tvm/blob/main/ci/README.md#github-actions)</sub>".

(** The character classes of the section pattern. *)
Definition lower (c : char) : bool := (97 <=? c) && (c <=? 122).
Definition lower_or_hyphen (c : char) : bool := lower c || (c =? 45).
(** [[\S\s]] *)
Definition space_or_not (c : char) : bool := negb (isspace c) || isspace c.

Definition MARK : str := lit "<!--bot-comment-".
Definition START_END : str := lit "-start-->".
Definition END_END : str := lit "-end-->".

(** [<!--bot-comment-([a-z][a-z-]+)-start-->([\S\s]*?)<!--bot-comment-([a-z-]+)-end-->] *)
Definition SECTION_RE : list node :=
  [ Lit MARK; GOpen; Cls lower; PlusGreedy lower_or_hyphen; GClose;
    Lit START_END;
    GOpen; StarLazy space_or_not; GClose;
    Lit MARK; GOpen; PlusGreedy lower_or_hyphen; GClose;
    Lit END_END ].

(** ** Data model *)

Module Item.
Record t := mk { key : str; text : option str; is_done : bool }.
End Item.

Definition dict := list (str * Item.t).

Fixpoint dict_get (k : str) (d : dict) : option Item.t :=
  match d with
  | [] => None
  | (k', v) :: d' => if str_eqb k k' then Some v else dict_get k d'
  end.

(** [d[k] = v] *)
Fixpoint dict_set (k : str) (v : Item.t) (d : dict) : dict :=
  match d with
  | [] => [(k, v)]
  | (k', v') :: d' =>
      if str_eqb k k' then (k', v) :: d' else (k', v') :: dict_set k v d'
  end.

(** One node of [data["comments"]["nodes"]]. *)
Record Comment := mkComment {
  author_login : str;
  body : str;
  databaseId : Z
}.

Record BotCommentBuilder := mkBuilder {
  pr_number : Z;
  comment_data : list Comment;
  author : str;
  bot_login : str
}.

(** Process-wide configuration read by [_post_comment]. *)
Record Env := mkEnv {
  OPT_OUT_USERS : list str;
  SKIP_COMMENT : option str
}.

Inductive exn :=
| RuntimeError (msg : str)
| ValueError.

Inductive outcome (A : Type) :=
| Ok (a : A)
| Raise (e : exn).
Arguments Ok {A} a.
Arguments Raise {A} e.

(** A request sent through the GitHub client, with the [body] of its data. *)
Inductive request :=
| post (url : str) (data_body : str)
| patch (url : str) (data_body : str).

(** ** Methods *)

Definition is_bot_comment (self : BotCommentBuilder) (comment : Comment) : bool :=
  str_eqb (author_login comment) (bot_login self)
  && str_in BOT_COMMENT_START (body comment).

Fixpoint first_bot_comment (self : BotCommentBuilder) (cs : list Comment)
  : option Comment :=
  match cs with
  | [] => None
  | comment :: cs' =>
      if is_bot_comment self comment then Some comment
      else first_bot_comment self cs'
  end.

Definition find_bot_comment (self : BotCommentBuilder) : option Comment :=
  first_bot_comment self (comment_data self).

Definition start_key (key : str) : str := lit "<!--bot-comment-" ++ key ++ lit "-start-->".
Definition end_key (key : str) : str := lit "<!--bot-comment-" ++ key ++ lit "-end-->".
Definition done_key (key : str) : str := lit "<!--bot-item-" ++ key ++ lit "-done-->".

Definition malformed (start end_ : str) : exn :=
  RuntimeError (lit "Malformed comment found: " ++ start
                ++ lit " marker did not have matching end, found instead " ++ end_).

(** The loop of [find_existing_body] over the matches, [items] being the
    dictionary built so far. *)
Fixpoint collect_items (matches : list captures) (items : dict) : outcome dict :=
  match matches with
  | [] => Ok items
  | [start; text; end_] :: matches' =>
      if str_eqb start end_ then
        let content := lstrip (lit "* ") (strip text) in
        let is_done := str_in (done_key start) content in
        collect_items matches'
          (dict_set start (Item.mk start (Some content) is_done) items)
      else Raise (malformed start end_)
  | _ :: _ => Raise ValueError
  end.

(** [find_existing_body] once the comment is located. *)
Definition parse_body (comment_body : str) : outcome dict :=
  collect_items (findall SECTION_RE comment_body) [].

Definition find_existing_body (self : BotCommentBuilder) : outcome dict :=
  match find_bot_comment self with
  | None => Ok []
  | Some existing_comment => parse_body (body existing_comment)
  end.

Definition is_done (self : BotCommentBuilder) (key : str) : outcome bool :=
  match find_existing_body self with
  | Raise e => Raise e
  | Ok body =>
      match dict_get key body with
      | None => Ok false
      | Some item => Ok (Item.is_done item)
      end
  end.

(** The text [_post_comment] builds before it decides whether to send it. *)
Definition render (body_items : dict) : str :=
  fold_left
    (fun comment (entry : str * Item.t) =>
       let (key, item) := entry in
       match Item.text item with
       | None => comment
       | Some content =>
           comment ++ (start_key key ++ nl ++ lit " * " ++ strip content ++ end_key key)
       end)
    body_items
    (BOT_COMMENT_START ++ nl ++ nl ++ WELCOME_TEXT ++ nl ++ nl)
  ++ FOOTER.

Definition getenv (v : option str) (default : str) : str :=
  match v with
  | Some x => x
  | None => default
  end.

Definition _post_comment (self : BotCommentBuilder) (env : Env) (body_items : dict)
  : list request :=
  let comment := render body_items in
  let url := lit "issues/" ++ str_of_int (pr_number self) ++ lit "/comments" in
  if existsb (str_eqb (author self)) (OPT_OUT_USERS env) then []
  else if str_eqb (getenv (SKIP_COMMENT env) []) (lit "1") then []
  else
    match find_bot_comment self with
    | None => [post url comment]
    | Some existing_comment =>
        let comment_url :=
          lit "issues/comments/" ++ str_of_int (databaseId existing_comment) in
        [patch comment_url comment]
    end.

Definition blank (text : option str) : bool :=
  match text with
  | None => true
  | Some t => str_eqb (strip t) []
  end.

(** The loop of [post_items] that adds or replaces the requested items. *)
Fixpoint update_items (items : list Item.t) (body_items : dict) : dict :=
  match items with
  | [] => body_items
  | item :: items' =>
      match Item.text item with
      | None => update_items items' body_items
      | Some t =>
          if str_eqb (strip t) [] then update_items items' body_items
          else update_items items'
                 (dict_set (Item.key item)
                    (Item.mk (Item.key item) (Some (strip t)) (Item.is_done item))
                    body_items)
      end
  end.

(** [post_items]: the requests sent, and how the call ends. *)
Definition post_items (self : BotCommentBuilder) (env : Env) (items : list Item.t)
  : list request * outcome unit :=
  match find_existing_body self with
  | Raise e => ([], Raise e)
  | Ok body_items => (_post_comment self env (update_items items body_items), Ok tt)
  end.

(** ** Properties named by the statements below *)

(** [k] matches [[a-z][a-z-]+], the class of a start marker's key. *)
Definition start_key_ok (k : str) : bool :=
  match k with
  | [] => false
  | c :: k' => lower c && negb (str_eqb k' []) && forallb lower_or_hyphen k'
  end.

(** [k] matches [[a-z-]+], the class of an end marker's key. *)
Definition end_key_ok (k : str) : bool :=
  negb (str_eqb k []) && forallb lower_or_hyphen k.

(** [t] contains an end marker [<!--bot-comment-KEY-end-->]. *)
Definition has_end_marker (t : str) : Prop :=
  exists a k b, end_key_ok k = true /\ t = a ++ end_key k ++ b.

(** The end-marker half of [SECTION_RE], and the search for it in [t]. *)
Definition END_RE : list node :=
  [ Lit MARK; GOpen; PlusGreedy lower_or_hyphen; GClose; Lit END_END ].

Fixpoint find_end_marker (t : str) : bool :=
  match exec END_RE [] [] t with
  | Some _ => true
  | None => match t with
            | [] => false
            | _ :: t' => find_end_marker t'
            end
  end.

(** [l] and [t] differ at a position both have, so [l] is not a prefix of
    [t ++ x], whatever [x]. *)
Fixpoint clash (l t : str) : bool :=
  match l, t with
  | a :: l', b :: t' => if a =? b then clash l' t' else true
  | _, _ => false
  end.

(** No position of [j] can begin a marker, whatever follows [j]. *)
Fixpoint inert (j : str) : bool :=
  match j with
  | [] => true
  | _ :: j' => clash MARK j && inert j'
  end.

(** [s] starts with [c]. *)
Definition starts_with_char (c : char) (s : str) : bool :=
  match s with
  | [] => false
  | x :: _ => x =? c
  end.

(** The stored text of a section: [text.strip().lstrip("* ")]. *)
Definition stored_text (raw : str) : str := lstrip (lit "* ") (strip raw).

(** The item [find_existing_body] stores for key [k] and raw content [c]. *)
Definition parsed_item (k c : str) : Item.t :=
  Item.mk k (Some (stored_text c)) (str_in (done_key k) (stored_text c)).

(** A body made of sections [(key, content, gap)]: the delimited section,
    then text [gap] where no marker begins. *)
Definition section_text (sec : str * str * str) : str :=
  let '(k, c, gap) := sec in start_key k ++ c ++ end_key k ++ gap.

Definition section_match (sec : str * str * str) : captures :=
  let '(k, c, _) := sec in [k; c; k].

Definition section_ok (sec : str * str * str) : Prop :=
  let '(k, c, gap) := sec in
  start_key_ok k = true /\ ~ has_end_marker c /\ inert gap = true.

(** Everything [render] writes before the sections. *)
Definition HEADER : str := BOT_COMMENT_START ++ nl ++ nl ++ WELCOME_TEXT ++ nl ++ nl.

(** The line [render] writes for one entry. *)
Definition render_line (e : str * Item.t) : str :=
  let (k, item) := e in
  match Item.text item with
  | None => []
  | Some content => start_key k ++ nl ++ lit " * " ++ strip content ++ end_key k
  end.

(** An entry the renderer writes and the parser reads back as it is: a key
    of the start-marker class, a text without end marker that does not begin
    with an asterisk once trimmed, and a done flag that agrees with the
    presence of the done marker in the text. *)
Definition renderable (e : str * Item.t) : Prop :=
  let (k, item) := e in
  start_key_ok k = true /\
  exists t, Item.text item = Some t
    /\ ~ has_end_marker t
    /\ starts_with_char 42 (strip t) = false
    /\ Item.is_done item = str_in (done_key k) (strip t).

(** The entry read back for a rendered entry. *)
Definition stored_entry (e : str * Item.t) : str * Item.t :=
  let (k, item) := e in
  (k, Item.mk k (option_map strip (Item.text item)) (Item.is_done item)).

(** [m'] has the keys of [m] and, key by key, its trimmed text and its done
    flag. *)
Definition same_sections (m m' : dict) : Prop :=
  map fst m' = map fst m /\
  forall k item, dict_get k m = Some item ->
    exists item', dict_get k m' = Some item'
      /\ Item.text item' = option_map strip (Item.text item)
      /\ Item.is_done item' = Item.is_done item.

(** Rendering [m] and parsing the result gives [m] back. *)
Definition roundtrips (m : dict) : Prop :=
  exists m', parse_body (render m) = Ok m' /\ same_sections m m'.

(** What [find_existing_body] guarantees of every entry it returns. *)
Definition parsed_ok (e : str * Item.t) : Prop :=
  let (k, item) := e in
  start_key_ok k = true /\ Item.key item = k /\
  exists t, Item.text item = Some t
    /\ ~ has_end_marker t
    /\ starts_with_char 42 t = false
    /\ Item.is_done item = str_in (done_key k) t.

(** Every text of [m] is its own trimmed form. *)
Definition texts_trimmed (m : dict) : Prop :=
  forall k item t, In (k, item) m -> Item.text item = Some t -> strip t = t.

(** The section a renderable entry is written as. *)
Definition rendered_section (e : str * Item.t) : str * str * str :=
  let (k, item) := e in
  (k, nl ++ lit " * " ++ strip (match Item.text item with Some t => t | None => [] end), []).

Definition section_key (sec : str * str * str) : str :=
  let '(k, _, _) := sec in k.

(** The entry stored for a section. *)
Definition section_entry (sec : str * str * str) : str * Item.t :=
  let '(k, c, _) := sec in (k, parsed_item k c).

(** No text of [m] contains the prefix common to all markers. *)
Definition texts_plain (m : dict) : Prop :=
  forall k item t, In (k, item) m -> Item.text item = Some t -> str_in MARK t = false.

(** ** Spec-side reading of the stored text

    Trim the raw content, then remove one leading bullet prefix, an asterisk
    and the space after it. *)
Definition strip_one_bullet (raw : str) : str :=
  match strip_prefix (lit "* ") (strip raw) with
  | Some r => r
  | None => strip raw
  end.

(** [comment] is written by the bot and carries the leading sentinel. *)
Definition is_bot (self : BotCommentBuilder) (comment : Comment) : Prop :=
  author_login comment = bot_login self
  /\ exists a b, body comment = a ++ BOT_COMMENT_START ++ b.

(** The author opted out, or commenting is switched off. *)
Definition suppressed (self : BotCommentBuilder) (env : Env) : Prop :=
  In (author self) (OPT_OUT_USERS env)
  \/ getenv (SKIP_COMMENT env) [] = lit "1".

(** ** Concrete data for the examples *)

Definition ex_map : dict :=
  [ (lit "ci", Item.mk (lit "ci") (Some (lit " Build passed ")) false);
    (lit "docs",
     Item.mk (lit "docs") (Some (lit "Docs built <!--bot-item-docs-done-->")) true) ].

(** The done flag is set, the text has no done marker. *)
Definition ex_flag_map : dict :=
  [ (lit "ci", Item.mk (lit "ci") (Some (lit "Build passed")) true) ].

(** A key that has never produced a text. *)
Definition ex_none_map : dict :=
  [ (lit "ci", Item.mk (lit "ci") None false) ].

(** A key of one letter. *)
Definition ex_letter_map : dict :=
  [ (lit "a", Item.mk (lit "a") (Some (lit "x")) false) ].

(** A comment edited by hand: a line break after the bullet. *)
Definition ex_edited_body : str :=
  BOT_COMMENT_START ++ nl ++ start_key (lit "ci") ++ nl ++ lit " * " ++ nl
  ++ lit "Build pending" ++ end_key (lit "ci").

Definition ex_body : str :=
  BOT_COMMENT_START ++ nl ++ start_key (lit "ci") ++ nl ++ lit " * Build pending"
  ++ end_key (lit "ci") ++ nl
  ++ start_key (lit "docs") ++ lit "Docs built" ++ nl
  ++ done_key (lit "docs") ++ end_key (lit "docs").

Definition ex_body_items : dict :=
  [ (lit "ci", Item.mk (lit "ci") (Some (lit "Build pending")) false);
    (lit "docs",
     Item.mk (lit "docs")
       (Some (lit "Docs built" ++ nl ++ lit "<!--bot-item-docs-done-->")) true) ].

Definition ex_sections : list (str * str * str) :=
  [ (lit "ci", nl ++ lit " * Build pending", nl);
    (lit "docs", lit "Docs built" ++ nl ++ done_key (lit "docs"), []) ].

(** Section [foo] closed by the end marker of [bar]. *)
Definition ex_mismatched_body : str :=
  BOT_COMMENT_START ++ start_key (lit "foo") ++ lit "x" ++ end_key (lit "bar").

(** A pull request where the bot has already commented. *)
Definition ex_comments : list Comment :=
  [ mkComment (lit "alice") (lit "LGTM") 7;
    mkComment (lit "tvm-bot") ex_body 42;
    mkComment (lit "tvm-bot") (BOT_COMMENT_START ++ lit "older") 43 ].

Definition ex_builder : BotCommentBuilder :=
  mkBuilder 1234 ex_comments (lit "alice") (lit "tvm-bot").

(** A pull request without comments. *)
Definition ex_new_builder : BotCommentBuilder :=
  mkBuilder 1234 [] (lit "alice") (lit "tvm-bot").

Definition ex_env : Env := mkEnv [] None.
Definition ex_opt_out_env : Env := mkEnv [lit "bob"; lit "alice"] None.

(** ** Views used by the further properties *)

(** The assignments [d[k] = v] of [kvs], made in order. *)
Definition dict_update (d : dict) (kvs : list (str * Item.t)) : dict :=
  fold_left (fun d kv => dict_set (fst kv) (snd kv) d) kvs d.

(** The value of the last assignment to [k] in [kvs], if there is one. *)
Fixpoint last_binding (k : str) (kvs : list (str * Item.t)) : option Item.t :=
  match kvs with
  | [] => None
  | (k', v) :: kvs' =>
      match last_binding k kvs' with
      | Some w => Some w
      | None => if str_eqb k k' then Some v else None
      end
  end.

(** The item the loop of [post_items] stores for an item with text [t]. *)
Definition merged_item (item : Item.t) (t : str) : Item.t :=
  Item.mk (Item.key item) (Some (strip t)) (Item.is_done item).

(** The assignments the loop of [post_items] makes for [items]. *)
Fixpoint pending (items : list Item.t) : list (str * Item.t) :=
  match items with
  | [] => []
  | item :: items' =>
      match Item.text item with
      | None => pending items'
      | Some t =>
          if str_eqb (strip t) [] then pending items'
          else (Item.key item, merged_item item t) :: pending items'
      end
  end.

(** [data["body"]] of a request. *)
Definition request_body (r : request) : str :=
  match r with
  | post _ b => b
  | patch _ b => b
  end.

Definition has_text (e : str * Item.t) : bool :=
  match Item.text (snd e) with
  | Some _ => true
  | None => false
  end.

(** What [render] reads of an entry: its key and its trimmed text. *)
Definition render_view (e : str * Item.t) : str * option str :=
  (fst e, option_map strip (Item.text (snd e))).

(** The entry has a text, trimmed and not empty. *)
Definition text_ok (e : str * Item.t) : Prop :=
  exists t, Item.text (snd e) = Some t /\ strip t = t /\ t <> [].

(** The line written for a view. *)
Definition line_of_view (v : str * option str) : str :=
  match snd v with
  | None => []
  | Some c => start_key (fst v) ++ nl ++ lit " * " ++ c ++ end_key (fst v)
  end.

(** Items for the examples: a new text for [ci], a blank one for [docs], a
    first text for [lint], then a second one for [ci]. *)
Definition ex_items : list Item.t :=
  [ Item.mk (lit "ci") (Some (lit "Build running")) false;
    Item.mk (lit "docs") (Some (lit "  ")) false;
    Item.mk (lit "lint") (Some (lit " Lint passed" ++ nl)) false;
    Item.mk (lit "ci") (Some (lit "Build passed ")) false ].

(** [s] holds a delimited section: a start marker with a key of its class,
    a content without end marker, an end marker with a key of its class. *)
Definition has_section (s : str) : Prop :=
  exists a k1 c k3 rest,
    s = a ++ start_key k1 ++ c ++ end_key k3 ++ rest
    /\ start_key_ok k1 = true /\ end_key_ok k3 = true /\ ~ has_end_marker c.

(** A body in which the section [ci] occurs twice. *)
Definition ex_twice : list (str * str * str) :=
  [ (lit "ci", nl ++ lit " * Build pending", nl);
    (lit "docs", lit "Docs built", []);
    (lit "ci", nl ++ lit " * Build passed", lit " bye") ].

(** What is read back for an entry the renderer wrote. *)
Definition reread_entry (e : str * Item.t) : str * Item.t :=
  section_entry (rendered_section e).

(** A map with an absent text, a text in bold and a done flag the text does
    not carry. *)
Definition ex_loose_map : dict :=
  [ (lit "docs", Item.mk (lit "docs") None true);
    (lit "ci", Item.mk (lit "ci") (Some (lit " **Build passed** ")) true) ].

(** [s] holds a delimited section whose start key is not its end key. *)
Definition has_mismatched_section (s : str) : Prop :=
  exists a k1 c k3 rest,
    s = a ++ start_key k1 ++ c ++ end_key k3 ++ rest
    /\ start_key_ok k1 = true /\ end_key_ok k3 = true /\ ~ has_end_marker c
    /\ k1 <> k3.

(** The start marker of [foo] inside the section of [aa]. *)
Definition ex_nested_body : str :=
  BOT_COMMENT_START ++ start_key (lit "aa") ++ start_key (lit "foo") ++ lit "x"
  ++ end_key (lit "aa").

(** A well-formed section, then section [foo] closed by the end marker of
    [bar], then more text. *)
Definition ex_late_mismatch_body : str :=
  (BOT_COMMENT_START ++ nl)
  ++ concat (map section_text [ (lit "ci", nl ++ lit " * Build pending", nl) ])
  ++ start_key (lit "foo") ++ lit "x" ++ end_key (lit "bar") ++ lit " and more".


(** [s] has no [<]. *)
Definition no_lt (s : str) : bool := forallb (fun c => negb (c =? 60)) s.

(** ** Strings: lemmas *)

Lemma str_eqb_eq (a b : str) : str_eqb a b = true <-> a = b.
Proof.
  revert b; induction a as [|x a IH]; intros [|y b]; simpl; split;
    try congruence; try reflexivity.
  - intros H. apply andb_true_iff in H as [H1 H2].
    apply N.eqb_eq in H1. apply IH in H2. congruence.
  - intros H. injection H as -> ->. rewrite N.eqb_refl. simpl. now apply IH.
Qed.

Lemma str_eqb_refl (a : str) : str_eqb a a = true.
Proof. now apply str_eqb_eq. Qed.

Lemma str_eqb_neq (a b : str) : str_eqb a b = false <-> a <> b.
Proof.
  split.
  - intros H E. apply str_eqb_eq in E. congruence.
  - intros H. destruct (str_eqb a b) eqn:E; [|reflexivity].
    apply str_eqb_eq in E. contradiction.
Qed.

Lemma str_eqb_nil (a : str) : str_eqb a [] = false <-> a <> [].
Proof. apply str_eqb_neq. Qed.

Lemma strip_prefix_app (l s : str) : strip_prefix l (l ++ s) = Some s.
Proof.
  induction l as [|a l IH]; simpl; [reflexivity|].
  now rewrite N.eqb_refl.
Qed.

Lemma strip_prefix_Some (l s r : str) :
  strip_prefix l s = Some r -> s = l ++ r.
Proof.
  revert s; induction l as [|a l IH]; intros s; simpl.
  - congruence.
  - destruct s as [|b s]; [discriminate|].
    destruct (a =? b) eqn:E; [|discriminate].
    apply N.eqb_eq in E. intros H. apply IH in H. congruence.
Qed.

Lemma clash_strip_prefix (l t x : str) :
  clash l t = true -> strip_prefix l (t ++ x) = None.
Proof.
  revert t; induction l as [|a l IH]; intros [|b t]; simpl; try discriminate.
  destruct (a =? b); [apply IH|reflexivity].
Qed.

Lemma str_in_iff (sub s : str) :
  str_in sub s = true <-> exists a b, s = a ++ sub ++ b.
Proof.
  split.
  - induction s as [|c s IH]; simpl.
    + destruct (strip_prefix sub []) as [r|] eqn:E; [|discriminate].
      intros _. apply strip_prefix_Some in E. exists [], r. exact E.
    + destruct (strip_prefix sub (c :: s)) as [r|] eqn:E.
      * intros _. apply strip_prefix_Some in E. exists [], r. exact E.
      * intros H. destruct (IH H) as (a & b & ->). now exists (c :: a), b.
  - intros (a & b & ->). induction a as [|c a IH].
    + simpl. destruct (sub ++ b) eqn:E; simpl;
        rewrite <- E, strip_prefix_app; reflexivity.
    + simpl. destruct (strip_prefix sub (c :: a ++ sub ++ b)); [reflexivity|exact IH].
Qed.

(** Characters before the first one outside a class are determined. *)
Lemma first_stop_unique (p : char -> bool) (u v x y : str) (g h : char) :
  forallb p u = true -> forallb p v = true -> p g = false -> p h = false ->
  u ++ g :: x = v ++ h :: y -> u = v /\ x = y.
Proof.
  revert v; induction u as [|a u IH]; intros [|b v] Hu Hv Hg Hh E; simpl in *.
  - injection E as _ ->. now split.
  - injection E as -> _. apply andb_true_iff in Hv as [Hb _]. congruence.
  - injection E as -> _. apply andb_true_iff in Hu as [Ha _]. congruence.
  - injection E as -> E. apply andb_true_iff in Hu as [_ Hu].
    apply andb_true_iff in Hv as [_ Hv].
    destruct (IH v Hu Hv Hg Hh E) as [-> ->]. now split.
Qed.

(** A run of class characters that meets a stop character inside [u ++ g :: _]
    lies within [u]. *)
Lemma run_before_stop (q : char -> bool) (m u y w : str) (g : char) :
  forallb q m = true -> q g = false -> u ++ g :: y = m ++ w ->
  exists z, u = m ++ z.
Proof.
  revert u; induction m as [|c m IH]; intros u Hm Hg E; simpl in *.
  - now exists u.
  - apply andb_true_iff in Hm as [Hc Hm].
    destruct u as [|d u]; simpl in E.
    + injection E as -> _. congruence.
    + injection E as -> E. destruct (IH u Hm Hg E) as [z ->]. now exists z.
Qed.

Lemma lstrip_by_split (p : char -> bool) (s : str) :
  exists a, s = a ++ lstrip_by p s /\ forallb p a = true.
Proof.
  induction s as [|c s (a & E & Ha)]; simpl.
  - now exists [].
  - destruct (p c) eqn:Hc.
    + exists (c :: a). simpl. rewrite Hc, Ha. split; [congruence|reflexivity].
    + now exists [].
Qed.

Lemma lstrip_by_head (p : char -> bool) (s : str) (c : char) (r : str) :
  lstrip_by p s = c :: r -> p c = false.
Proof.
  induction s as [|d s IH]; simpl; [discriminate|].
  destruct (p d) eqn:Hd; [exact IH|]. intros E. injection E as -> _. exact Hd.
Qed.

Lemma lstrip_by_stop (p : char -> bool) (c : char) (s : str) :
  p c = false -> lstrip_by p (c :: s) = c :: s.
Proof. intros H. simpl. now rewrite H. Qed.

Lemma lstrip_by_app_stop (p : char -> bool) (s x : str) :
  lstrip_by p s <> [] -> lstrip_by p (s ++ x) = lstrip_by p s ++ x.
Proof.
  induction s as [|c s IH]; simpl; [congruence|].
  destruct (p c); [exact IH|reflexivity].
Qed.

Lemma rstrip_by_split (p : char -> bool) (s : str) :
  exists b, s = rstrip_by p s ++ b /\ forallb p b = true.
Proof.
  unfold rstrip_by. destruct (lstrip_by_split p (rev s)) as (a & E & Ha).
  exists (rev a). split.
  - rewrite <- rev_app_distr, <- E. now rewrite rev_involutive.
  - rewrite forallb_forall in *. intros x Hx. apply Ha. now apply in_rev.
Qed.

Lemma rstrip_by_app (p : char -> bool) (x s : str) :
  rstrip_by p s <> [] -> rstrip_by p (x ++ s) = x ++ rstrip_by p s.
Proof.
  unfold rstrip_by. intros H. rewrite rev_app_distr, lstrip_by_app_stop.
  - now rewrite rev_app_distr, rev_involutive.
  - intros E. apply H. now rewrite E.
Qed.

Lemma rstrip_by_fixed (p : char -> bool) (s : str) :
  rstrip_by p (rstrip_by p s) = rstrip_by p s.
Proof.
  unfold rstrip_by. rewrite rev_involutive.
  destruct (lstrip_by p (rev s)) as [|c r] eqn:E; [reflexivity|].
  apply lstrip_by_head in E. now rewrite lstrip_by_stop.
Qed.

(** ** The matcher: lemmas *)

Section QuantifierFacts.
Variable p : char -> bool.
Variable k : str -> str -> option (captures * str).

Lemma star_greedy_None (s : str) : forall cur,
  (forall a b, forallb p a = true -> a ++ b = s -> k (cur ++ a) b = None) ->
  star_greedy p k cur s = None.
Proof.
  induction s as [|c s IH]; intros cur H.
  - pose proof (H [] [] eq_refl eq_refl) as K. rewrite app_nil_r in K. exact K.
  - pose proof (H [] (c :: s) eq_refl eq_refl) as K. rewrite app_nil_r in K.
    simpl. destruct (p c) eqn:Hc; [|exact K].
    rewrite IH; [exact K|]. intros a b Ha E. rewrite <- app_assoc.
    apply H; simpl; [now rewrite Hc|now rewrite E].
Qed.

(** When a single split of the input lets the rest of the pattern go on,
    the greedy loop ends there. *)
Lemma star_greedy_unique (a : str) : forall b cur,
  forallb p a = true ->
  (forall a' b', forallb p a' = true -> a' ++ b' = a ++ b -> a' <> a ->
                 k (cur ++ a') b' = None) ->
  star_greedy p k cur (a ++ b) = k (cur ++ a) b.
Proof.
  induction a as [|c a IH]; intros b cur Ha H.
  - simpl. rewrite app_nil_r. destruct b as [|c b]; [reflexivity|]. simpl.
    destruct (p c) eqn:Hc; [|reflexivity].
    rewrite star_greedy_None; [reflexivity|]. intros a' b' Ha' E.
    rewrite <- app_assoc. apply H; simpl.
    + now rewrite Hc.
    + now rewrite E.
    + discriminate.
  - simpl in Ha. apply andb_true_iff in Ha as [Hc Ha]. simpl. rewrite Hc.
    rewrite IH; [|exact Ha|].
    + rewrite <- app_assoc. simpl.
      destruct (k (cur ++ c :: a) b) eqn:E; [reflexivity|].
      pose proof (H [] (c :: a ++ b) eq_refl eq_refl) as K.
      rewrite app_nil_r in K. apply K. discriminate.
    + intros a' b' Ha' E Hne. rewrite <- app_assoc. apply H; simpl.
      * now rewrite Hc.
      * now rewrite E.
      * congruence.
Qed.

Lemma plus_greedy_unique (a b cur : str) :
  a <> [] -> forallb p a = true ->
  (forall a' b', forallb p a' = true -> a' ++ b' = a ++ b -> a' <> a ->
                 k (cur ++ a') b' = None) ->
  plus_greedy p k cur (a ++ b) = k (cur ++ a) b.
Proof.
  destruct a as [|c a]; [congruence|]. intros _ Ha H.
  simpl in Ha. apply andb_true_iff in Ha as [Hc Ha].
  simpl. rewrite Hc. rewrite star_greedy_unique; [|exact Ha|].
  - now rewrite <- app_assoc.
  - intros a' b' Ha' E Hne. rewrite <- app_assoc. apply H; simpl.
    + now rewrite Hc.
    + now rewrite E.
    + congruence.
Qed.

Lemma star_greedy_inv (s : str) : forall cur r,
  star_greedy p k cur s = Some r ->
  exists a b, forallb p a = true /\ s = a ++ b /\ k (cur ++ a) b = Some r.
Proof.
  induction s as [|c s IH]; intros cur r; simpl.
  - intros H. exists [], []. rewrite (app_nil_r cur). auto.
  - assert (Here : k cur (c :: s) = Some r ->
                   exists a b, forallb p a = true /\ c :: s = a ++ b
                               /\ k (cur ++ a) b = Some r).
    { intros H. exists [], (c :: s). rewrite (app_nil_r cur). auto. }
    destruct (p c) eqn:Hc; [|exact Here].
    destruct (star_greedy p k (cur ++ [c]) s) as [r'|] eqn:E; [|exact Here].
    intros H. injection H as ->.
    destruct (IH _ _ E) as (a & b & Ha & -> & Hk).
    exists (c :: a), b. simpl. rewrite Hc, Ha.
    rewrite <- app_assoc in Hk. now repeat split.
Qed.

Lemma plus_greedy_inv (s cur : str) (r : captures * str) :
  plus_greedy p k cur s = Some r ->
  exists a b, a <> [] /\ forallb p a = true /\ s = a ++ b
              /\ k (cur ++ a) b = Some r.
Proof.
  destruct s as [|c s]; simpl; [discriminate|].
  destruct (p c) eqn:Hc; [|discriminate]. intros H.
  destruct (star_greedy_inv _ _ _ H) as (a & b & Ha & -> & Hk).
  exists (c :: a), b. simpl. rewrite Hc, Ha.
  rewrite <- app_assoc in Hk. repeat split; [discriminate|exact Hk].
Qed.

Lemma star_lazy_eq (cur s : str) :
  star_lazy p k cur s =
  match k cur s with
  | Some r => Some r
  | None => match s with
            | c :: s' => if p c then star_lazy p k (cur ++ [c]) s' else None
            | [] => None
            end
  end.
Proof. destruct s; reflexivity. Qed.

(** The lazy loop stops at the first split that lets the rest go on. *)
Lemma star_lazy_found (a : str) : forall b cur r,
  forallb p a = true ->
  k (cur ++ a) b = Some r ->
  (forall a1 a2, a = a1 ++ a2 -> a2 <> [] -> k (cur ++ a1) (a2 ++ b) = None) ->
  star_lazy p k cur (a ++ b) = Some r.
Proof.
  induction a as [|c a IH]; intros b cur r Ha Hk Hmin.
  - rewrite star_lazy_eq. simpl. rewrite app_nil_r in Hk. now rewrite Hk.
  - simpl in Ha. apply andb_true_iff in Ha as [Hc Ha].
    rewrite star_lazy_eq.
    pose proof (Hmin [] (c :: a) eq_refl) as K. rewrite app_nil_r in K.
    simpl in *. rewrite K by discriminate. rewrite Hc.
    apply IH; [exact Ha|now rewrite <- app_assoc|].
    intros a1 a2 -> Hne. rewrite <- app_assoc. now apply (Hmin (c :: a1) a2).
Qed.

Lemma star_lazy_inv (s : str) : forall cur r,
  star_lazy p k cur s = Some r ->
  exists a b, s = a ++ b /\ forallb p a = true /\ k (cur ++ a) b = Some r
    /\ (forall a1 a2, a = a1 ++ a2 -> a2 <> [] -> k (cur ++ a1) (a2 ++ b) = None).
Proof.
  induction s as [|c s IH]; intros cur r; rewrite star_lazy_eq.
  - destruct (k cur []) as [r'|] eqn:E; [|discriminate].
    intros H. injection H as ->. exists [], []. rewrite (app_nil_r cur).
    repeat split; try assumption.
    intros a1 a2 H. symmetry in H. apply app_eq_nil in H as [_ ->]. congruence.
  - destruct (k cur (c :: s)) as [r'|] eqn:E.
    + intros H. injection H as ->. exists [], (c :: s). rewrite (app_nil_r cur).
      repeat split; try assumption.
      intros a1 a2 H. symmetry in H. apply app_eq_nil in H as [_ ->]. congruence.
    + destruct (p c) eqn:Hc; [|discriminate]. intros H.
      destruct (IH _ _ H) as (a & b & -> & Ha & Hk & Hmin).
      exists (c :: a), b. simpl. rewrite Hc, Ha.
      rewrite <- app_assoc in Hk. repeat split; try assumption.
      intros [|d a1] a2 Ea Hne; simpl in Ea.
      * subst a2. rewrite app_nil_r. exact E.
      * injection Ea as <- ->. specialize (Hmin a1 a2 eq_refl Hne).
        now rewrite <- app_assoc in Hmin.
Qed.
End QuantifierFacts.

Lemma exec_Lit l pat caps cur s :
  exec (Lit l :: pat) caps cur s =
  match strip_prefix l s with
  | Some s' => exec pat caps (cur ++ l) s'
  | None => None
  end.
Proof. reflexivity. Qed.

Lemma exec_Cls p pat caps cur s :
  exec (Cls p :: pat) caps cur s =
  match s with
  | c :: s' => if p c then exec pat caps (cur ++ [c]) s' else None
  | [] => None
  end.
Proof. reflexivity. Qed.

Lemma exec_PlusGreedy p pat caps cur s :
  exec (PlusGreedy p :: pat) caps cur s = plus_greedy p (exec pat caps) cur s.
Proof. reflexivity. Qed.

Lemma exec_StarLazy p pat caps cur s :
  exec (StarLazy p :: pat) caps cur s = star_lazy p (exec pat caps) cur s.
Proof. reflexivity. Qed.

Lemma exec_GOpen pat caps cur s :
  exec (GOpen :: pat) caps cur s = exec pat caps [] s.
Proof. reflexivity. Qed.

Lemma exec_GClose pat caps cur s :
  exec (GClose :: pat) caps cur s = exec pat (caps ++ [cur]) [] s.
Proof. reflexivity. Qed.

(** A greedy class run closed by a literal that ends in a character outside
    the class: the run is everything before that literal. *)
Lemma exec_plus_then_lit p l0 g pat caps cur a rest :
  a <> [] -> forallb p a = true -> forallb p l0 = true -> p g = false ->
  exec (PlusGreedy p :: GClose :: Lit (l0 ++ [g]) :: pat) caps cur
       (a ++ (l0 ++ [g]) ++ rest)
  = exec pat (caps ++ [cur ++ a]) (l0 ++ [g]) rest.
Proof.
  intros Hne Ha Hl Hg. rewrite exec_PlusGreedy, plus_greedy_unique; trivial.
  - now rewrite exec_GClose, exec_Lit, strip_prefix_app.
  - intros a' b' Ha' E Hdiff. rewrite exec_GClose, exec_Lit.
    destruct (strip_prefix (l0 ++ [g]) b') as [r|] eqn:P; [|reflexivity].
    apply strip_prefix_Some in P. subst b'. exfalso. apply Hdiff.
    rewrite <- !app_assoc in E. simpl in E. rewrite !app_assoc in E.
    apply first_stop_unique with (p := p) in E; trivial.
    + destruct E as [E _]. now apply app_inv_tail in E.
    + rewrite forallb_app, Ha', Hl. reflexivity.
    + rewrite forallb_app, Ha, Hl. reflexivity.
Qed.

Lemma exec_plus_then_lit_inv p l pat caps cur s r :
  exec (PlusGreedy p :: GClose :: Lit l :: pat) caps cur s = Some r ->
  exists a rest, a <> [] /\ forallb p a = true /\ s = a ++ l ++ rest
                 /\ exec pat (caps ++ [cur ++ a]) l rest = Some r.
Proof.
  rewrite exec_PlusGreedy. intros H.
  apply plus_greedy_inv in H as (a & b & Hne & Ha & -> & H).
  rewrite exec_GClose, exec_Lit in H.
  destruct (strip_prefix l b) as [rest|] eqn:P; [|discriminate].
  apply strip_prefix_Some in P. subst b. now exists a, rest.
Qed.

(** ** The section pattern *)

Lemma lower_or_hyphen_not_lt c :
  lower_or_hyphen c = true -> negb (c =? 60) = true.
Proof.
  intros H. destruct (N.eqb_spec c 60) as [->|]; [discriminate H|reflexivity].
Qed.

Lemma end_key_ok_iff k :
  end_key_ok k = true <-> k <> [] /\ forallb lower_or_hyphen k = true.
Proof.
  unfold end_key_ok. rewrite andb_true_iff, negb_true_iff, str_eqb_nil. tauto.
Qed.

Lemma start_key_ok_inv k :
  start_key_ok k = true ->
  exists c k', k = c :: k' /\ lower c = true /\ k' <> []
               /\ forallb lower_or_hyphen k' = true.
Proof.
  destruct k as [|c k']; simpl; [discriminate|].
  rewrite !andb_true_iff, negb_true_iff, str_eqb_nil.
  intros [[H1 H2] H3]. now exists c, k'.
Qed.

Lemma start_key_ok_end_key_ok k : start_key_ok k = true -> end_key_ok k = true.
Proof.
  intros H. apply start_key_ok_inv in H as (c & k' & -> & Hc & _ & Hk).
  apply end_key_ok_iff. split; [discriminate|].
  simpl. unfold lower_or_hyphen at 1. now rewrite Hc, Hk.
Qed.

Lemma all_space_or_not s : forallb space_or_not s = true.
Proof.
  apply forallb_forall. intros c _. unfold space_or_not.
  now destruct (isspace c).
Qed.

Lemma has_end_marker_app x t y : has_end_marker t -> has_end_marker (x ++ t ++ y).
Proof.
  intros (a & k & b & Hk & ->). exists (x ++ a), k, (b ++ y).
  split; [exact Hk|]. now rewrite <- !app_assoc.
Qed.

Lemma exec_END_RE caps cur k rest :
  end_key_ok k = true ->
  exec END_RE caps cur (end_key k ++ rest) = Some (caps ++ [k], rest).
Proof.
  intros H. apply end_key_ok_iff in H as [Hne Hk].
  unfold END_RE, end_key, MARK. rewrite <- !app_assoc.
  rewrite exec_Lit, strip_prefix_app, exec_GOpen.
  change END_END with (lit "-end--" ++ [62]).
  change (lit "-end-->") with (lit "-end--" ++ [62]).
  rewrite exec_plus_then_lit; trivial.
Qed.

Lemma exec_END_RE_inv caps cur s caps' rest :
  exec END_RE caps cur s = Some (caps', rest) ->
  exists k, end_key_ok k = true /\ s = end_key k ++ rest /\ caps' = caps ++ [k].
Proof.
  unfold END_RE. rewrite exec_Lit.
  destruct (strip_prefix MARK s) as [s1|] eqn:P; [|discriminate].
  apply strip_prefix_Some in P. subst s. rewrite exec_GOpen. intros H.
  apply exec_plus_then_lit_inv in H as (k & r & Hne & Hk & -> & H).
  simpl in H. injection H as <- <-. exists k. repeat split.
  - now apply end_key_ok_iff.
  - unfold end_key, MARK, END_END. now rewrite <- !app_assoc.
Qed.

(** An end marker that starts inside [t] ends inside [t] when what follows
    [t] is a marker: [<] occurs in a marker at its first position only. *)
Lemma end_marker_local t k rest caps cur r :
  t <> [] ->
  exec END_RE caps cur (t ++ end_key k ++ rest) = Some r ->
  has_end_marker t.
Proof.
  intros Hne H. destruct r as [caps' rest'].
  apply exec_END_RE_inv in H as (k' & Hk' & E & _).
  destruct t as [|x t]; [congruence|].
  pose proof Hk' as Hk2. apply end_key_ok_iff in Hk2 as [_ Hall].
  assert (M : exists z, t = (lit "!--bot-comment-" ++ k' ++ lit "-end-->") ++ z).
  { apply run_before_stop with (q := fun c => negb (c =? 60)) (g := 60)
      (y := (lit "!--bot-comment-" ++ k ++ lit "-end-->") ++ rest) (w := rest').
    - rewrite !forallb_app. rewrite andb_true_iff. split; [reflexivity|].
      rewrite andb_true_iff. split; [|reflexivity].
      apply forallb_forall. intros c Hc. apply lower_or_hyphen_not_lt.
      rewrite forallb_forall in Hall. now apply Hall.
    - reflexivity.
    - unfold end_key in E. simpl in E. injection E as _ E. exact E. }
  destruct M as [z ->]. unfold end_key in E. simpl in E. injection E as -> _.
  exists [], k', z. split; [exact Hk'|reflexivity].
Qed.

Lemma find_end_marker_eq t :
  find_end_marker t =
  match exec END_RE [] [] t with
  | Some _ => true
  | None => match t with
            | [] => false
            | _ :: t' => find_end_marker t'
            end
  end.
Proof. destruct t; reflexivity. Qed.

Lemma find_end_marker_complete t : has_end_marker t -> find_end_marker t = true.
Proof.
  intros (a & k & b & Hk & ->). induction a as [|c a IH].
  - rewrite find_end_marker_eq.
    change ([] ++ end_key k ++ b) with (end_key k ++ b). now rewrite exec_END_RE.
  - rewrite find_end_marker_eq.
    change ((c :: a) ++ end_key k ++ b) with (c :: a ++ end_key k ++ b).
    destruct (exec END_RE [] [] (c :: a ++ end_key k ++ b)); [reflexivity|exact IH].
Qed.

Lemma find_end_marker_sound t : find_end_marker t = true -> has_end_marker t.
Proof.
  induction t as [|c t IH]; rewrite find_end_marker_eq.
  - destruct (exec END_RE [] [] []) as [[caps rest]|] eqn:E; [|discriminate].
    intros _. apply exec_END_RE_inv in E as (k & Hk & E & _).
    exists [], k, rest. now split.
  - destruct (exec END_RE [] [] (c :: t)) as [[caps rest]|] eqn:E.
    + intros _. apply exec_END_RE_inv in E as (k & Hk & E & _).
      exists [], k, rest. now split.
    + intros H. apply (has_end_marker_app [c] t []) in IH; [|exact H].
      now rewrite app_nil_r in IH.
Qed.

(** What a match of [SECTION_RE] at the start of the input is. *)
Lemma exec_SECTION_RE k1 c k3 rest :
  start_key_ok k1 = true -> end_key_ok k3 = true -> ~ has_end_marker c ->
  exec SECTION_RE [] [] (start_key k1 ++ c ++ end_key k3 ++ rest)
  = Some ([k1; c; k3], rest).
Proof.
  intros H1 H3 Hc. apply start_key_ok_inv in H1 as (a & k' & -> & Ha & Hne & Hk').
  unfold SECTION_RE, start_key, MARK. rewrite <- !app_assoc.
  rewrite exec_Lit, strip_prefix_app, exec_GOpen.
  rewrite <- app_comm_cons, exec_Cls, Ha.
  change START_END with (lit "-start--" ++ [62]).
  change (lit "-start-->") with (lit "-start--" ++ [62]).
  rewrite exec_plus_then_lit; trivial.
  rewrite exec_GOpen, exec_StarLazy.
  apply star_lazy_found.
  - apply all_space_or_not.
  - rewrite exec_GClose.
    etransitivity; [exact (exec_END_RE _ _ k3 rest H3)|reflexivity].
  - intros a1 a2 -> Hne2. rewrite exec_GClose.
    match goal with |- ?e = None => destruct e as [r|] eqn:E; [|reflexivity] end.
    exfalso. apply Hc. rewrite <- (app_nil_r a2). apply has_end_marker_app.
    exact (end_marker_local _ _ _ _ _ _ Hne2 E).
Qed.

Lemma exec_SECTION_RE_inv s caps rest :
  exec SECTION_RE [] [] s = Some (caps, rest) ->
  exists k1 c k3,
    caps = [k1; c; k3] /\ start_key_ok k1 = true /\ end_key_ok k3 = true
    /\ ~ has_end_marker c /\ s = start_key k1 ++ c ++ end_key k3 ++ rest.
Proof.
  unfold SECTION_RE. rewrite exec_Lit.
  destruct (strip_prefix MARK s) as [s1|] eqn:P; [|discriminate].
  apply strip_prefix_Some in P. subst s. rewrite exec_GOpen, exec_Cls.
  destruct s1 as [|a s1]; [discriminate|].
  destruct (lower a) eqn:Ha; [|discriminate]. intros H.
  apply exec_plus_then_lit_inv in H as (k' & r1 & Hne & Hk' & -> & H).
  rewrite exec_GOpen, exec_StarLazy in H.
  apply star_lazy_inv in H as (c & b & -> & _ & H & Hmin).
  rewrite exec_GClose in H.
  apply (exec_END_RE_inv _ _ b caps rest) in H as (k3 & H3 & -> & ->).
  exists (a :: k'), c, k3. repeat split.
  - simpl. rewrite Ha, Hk'. apply str_eqb_nil in Hne. now rewrite Hne.
  - exact H3.
  - intros (x & kk & y & Hkk & ->).
    assert (Hn : end_key kk ++ y <> []) by (unfold end_key; simpl; discriminate).
    specialize (Hmin x (end_key kk ++ y) eq_refl Hn).
    rewrite exec_GClose, <- (app_assoc (end_key kk) y) in Hmin.
    match type of Hmin with
    | exec _ ?cs ?cu _ = None =>
        pose proof (exec_END_RE cs cu kk (y ++ end_key k3 ++ rest) Hkk) as K
    end.
    unfold END_RE in K. congruence.
  - unfold start_key, MARK, START_END. now rewrite <- !app_assoc.
Qed.

Lemma exec_SECTION_RE_None s :
  strip_prefix MARK s = None -> exec SECTION_RE [] [] s = None.
Proof. intros H. unfold SECTION_RE. now rewrite exec_Lit, H. Qed.

Lemma exec_SECTION_RE_progress s caps rest :
  exec SECTION_RE [] [] s = Some (caps, rest) -> (length rest < length s)%nat.
Proof.
  intros H. apply exec_SECTION_RE_inv in H as (k1 & c & k3 & _ & _ & _ & _ & ->).
  unfold start_key. rewrite !length_app. simpl. lia.
Qed.

(** ** [findall] *)

Section FindallFacts.
Variable pat : list node.
Hypothesis progress : forall s caps rest,
  exec pat [] [] s = Some (caps, rest) -> (length rest < length s)%nat.

Lemma findall_from_S n s :
  findall_from pat (S n) s =
  match exec pat [] [] s with
  | Some (caps, rest) => caps :: findall_from pat n rest
  | None => match s with
            | [] => []
            | _ :: s' => findall_from pat n s'
            end
  end.
Proof. reflexivity. Qed.

(** Fuel beyond the length of the input changes nothing. *)
Lemma findall_from_enough : forall n m s,
  (length s < n)%nat -> (length s < m)%nat ->
  findall_from pat n s = findall_from pat m s.
Proof.
  induction n as [|n IH]; intros m s Hn Hm; [lia|].
  destruct m as [|m]; [lia|]. rewrite !findall_from_S.
  destruct (exec pat [] [] s) as [[caps rest]|] eqn:E.
  - apply progress in E. f_equal. apply IH; lia.
  - destruct s as [|c s]; [reflexivity|]. simpl in Hn, Hm. apply IH; lia.
Qed.

Lemma findall_match s caps rest :
  exec pat [] [] s = Some (caps, rest) ->
  findall pat s = caps :: findall pat rest.
Proof.
  intros E. unfold findall. rewrite findall_from_S, E. f_equal.
  apply progress in E. apply findall_from_enough; lia.
Qed.

Lemma findall_skip c s :
  exec pat [] [] (c :: s) = None -> findall pat (c :: s) = findall pat s.
Proof. intros E. unfold findall. now rewrite findall_from_S, E. Qed.

Lemma findall_from_In n : forall s caps,
  In caps (findall_from pat n s) ->
  exists s' rest, exec pat [] [] s' = Some (caps, rest).
Proof.
  induction n as [|n IH]; intros s caps; [contradiction|].
  rewrite findall_from_S.
  destruct (exec pat [] [] s) as [[caps' rest]|] eqn:E.
  - intros [<-|H]; [now exists s, rest|now apply IH in H].
  - destruct s as [|c s]; [contradiction|]. apply IH.
Qed.
End FindallFacts.

Lemma findall_section k1 c k3 rest :
  start_key_ok k1 = true -> end_key_ok k3 = true -> ~ has_end_marker c ->
  findall SECTION_RE (start_key k1 ++ c ++ end_key k3 ++ rest)
  = [k1; c; k3] :: findall SECTION_RE rest.
Proof.
  intros H1 H3 Hc. apply (findall_match _ exec_SECTION_RE_progress).
  now apply exec_SECTION_RE.
Qed.

Lemma findall_inert j s :
  inert j = true -> findall SECTION_RE (j ++ s) = findall SECTION_RE s.
Proof.
  induction j as [|c j IH]; [reflexivity|].
  change (inert (c :: j)) with (clash MARK (c :: j) && inert j).
  rewrite andb_true_iff. intros [Hc Hj].
  change ((c :: j) ++ s) with (c :: j ++ s). rewrite findall_skip; [now apply IH|].
  apply exec_SECTION_RE_None.
  exact (clash_strip_prefix MARK (c :: j) s Hc).
Qed.

Lemma findall_In s caps :
  In caps (findall SECTION_RE s) ->
  exists k1 c k3, caps = [k1; c; k3] /\ start_key_ok k1 = true
                  /\ end_key_ok k3 = true /\ ~ has_end_marker c.
Proof.
  intros H. apply findall_from_In in H as (s' & rest & E).
  apply exec_SECTION_RE_inv in E as (k1 & c & k3 & E & H1 & H3 & Hc & _).
  now exists k1, c, k3.
Qed.

(** The scan on a few bodies, with the matches Python's [re.findall] reports
    for them: a key that holds [-start--], a start marker inside a content,
    unfinished markers around sections, keys made of hyphens, a one-letter
    start key. *)
Example findall_examples :
  findall SECTION_RE
    (lit "<!--bot-comment-ab-start---start-->x<!--bot-comment-ab-start---end-->")
  = [[lit "ab-start--"; lit "x"; lit "ab-start--"]]
  /\ findall SECTION_RE
       (lit "<!--bot-comment-ab-start--> <!--bot-comment-cd-start-->x<!--bot-comment-ab-end-->tail<!--bot-comment-cd-end-->")
     = [[lit "ab"; lit " <!--bot-comment-cd-start-->x"; lit "ab"]]
  /\ findall SECTION_RE
       (lit "<!--bot-comment-<!--bot-comment-ci-start--><!--bot-comment-ci-end--><!--bot-comment-ci-end--<!--bot-comment-x-y-start--><!--bot-comment-<!--bot-comment----end-->")
     = [[lit "ci"; []; lit "ci"]; [lit "x-y"; lit "<!--bot-comment-"; lit "--"]]
  /\ findall SECTION_RE
       (lit "<!--bot-comment-ci--start--><<!--bot-comment-Z-end--><!--bot-comment---end--><!--bot-comment-zz-start-->q<!--bot-comment-zz-end-->")
     = [[lit "ci-"; lit "<<!--bot-comment-Z-end-->"; lit "-"]; [lit "zz"; lit "q"; lit "zz"]]
  /\ findall SECTION_RE
       (lit "<!--bot-comment-a-start--><!--bot-comment-ab-start-->x<!--bot-comment-a-end--><!--bot-comment-ab-end-->")
     = [[lit "ab"; lit "x"; lit "a"]]
  /\ findall SECTION_RE
       (lit "<!--bot-comment-ab-start--><!--bot-comment-ab-start-->-end-->")
     = [].
Proof. repeat split; vm_compute; reflexivity. Qed.

Lemma findall_sections secs : forall tail,
  Forall section_ok secs ->
  findall SECTION_RE (concat (map section_text secs) ++ tail)
  = map section_match secs ++ findall SECTION_RE tail.
Proof.
  induction secs as [|[[k c] gap] secs IH]; intros tail H; [reflexivity|].
  inversion H as [|? ? Hs H']; subst.
  unfold section_ok in Hs. destruct Hs as (Hk & Hc & Hg).
  change (concat (map section_text ((k, c, gap) :: secs)))
    with ((start_key k ++ c ++ end_key k ++ gap) ++ concat (map section_text secs)).
  change (map section_match ((k, c, gap) :: secs))
    with ([k; c; k] :: map section_match secs).
  rewrite <- !app_assoc.
  rewrite findall_section; trivial; [|now apply start_key_ok_end_key_ok].
  rewrite findall_inert by exact Hg. rewrite IH by exact H'. reflexivity.
Qed.

(** ** Trimming *)

Lemma strip_head t c r : strip t = c :: r -> isspace c = false.
Proof.
  unfold strip. intros E.
  destruct (rstrip_by_split isspace (lstrip_by isspace t)) as (b & Hb & _).
  rewrite E in Hb. simpl in Hb. now apply lstrip_by_head in Hb.
Qed.

Lemma strip_rstrip t : rstrip_by isspace (strip t) = strip t.
Proof. apply rstrip_by_fixed. Qed.

Lemma strip_inside t : exists x y, t = x ++ strip t ++ y.
Proof.
  destruct (lstrip_by_split isspace t) as (x & Hx & _).
  destruct (rstrip_by_split isspace (lstrip_by isspace t)) as (y & Hy & _).
  exists x, y. unfold strip. now rewrite <- Hy.
Qed.

Lemma lstrip_inside chars t : exists x, t = x ++ lstrip chars t.
Proof.
  destruct (lstrip_by_split (fun c => existsb (N.eqb c) chars) t) as (x & Hx & _).
  now exists x.
Qed.

Lemma stored_text_inside raw : exists x y, raw = x ++ stored_text raw ++ y.
Proof.
  destruct (strip_inside raw) as (x & y & E).
  destruct (lstrip_inside (lit "* ") (strip raw)) as (z & Hz).
  exists (x ++ z), y. unfold stored_text. rewrite <- app_assoc.
  rewrite (app_assoc z), <- Hz. exact E.
Qed.

Lemma stored_text_no_bullet raw : starts_with_char 42 (stored_text raw) = false.
Proof.
  unfold stored_text, lstrip.
  destruct (lstrip_by _ (strip raw)) as [|c r] eqn:E; [reflexivity|].
  apply lstrip_by_head in E. simpl.
  destruct (N.eqb_spec c 42) as [->|]; [discriminate E|reflexivity].
Qed.

(** What the parser stores for a line the renderer wrote. *)
Lemma stored_text_rendered t :
  starts_with_char 42 (strip t) = false ->
  stored_text (nl ++ lit " * " ++ strip t) = strip t.
Proof.
  intros Hb. unfold stored_text at 1.
  assert (E : strip (nl ++ lit " * " ++ strip t)
              = rstrip_by isspace (lit "* " ++ strip t)) by reflexivity.
  rewrite E. destruct (strip t) as [|c u] eqn:U; [reflexivity|].
  rewrite rstrip_by_app.
  - rewrite <- U, strip_rstrip, U.
    pose proof (strip_head _ _ _ U) as Hc. simpl in Hb.
    unfold lstrip. simpl. rewrite Hb.
    destruct (N.eqb_spec c 32) as [->|]; [discriminate Hc|reflexivity].
  - rewrite <- U, strip_rstrip, U. discriminate.
Qed.

Lemma has_end_marker_tail c u :
  c <> 60 -> has_end_marker (c :: u) -> has_end_marker u.
Proof.
  intros Hc (a & k & b & Hk & E). destruct a as [|d a].
  - unfold end_key in E. simpl in E. injection E as -> _. congruence.
  - simpl in E. injection E as _ ->. now exists a, k, b.
Qed.

Lemma rendered_line_no_end_marker t :
  ~ has_end_marker t -> ~ has_end_marker (nl ++ lit " * " ++ strip t).
Proof.
  intros H M. apply H.
  do 4 (apply has_end_marker_tail in M; [|discriminate]).
  destruct (strip_inside t) as (x & y & E). rewrite E.
  now apply has_end_marker_app.
Qed.

(** ** Dictionaries *)

Lemma dict_set_fresh k v (d : dict) :
  ~ In k (map fst d) -> dict_set k v d = d ++ [(k, v)].
Proof.
  induction d as [|[k' v'] d IH]; simpl; intros H; [reflexivity|].
  destruct (str_eqb k k') eqn:E.
  - apply str_eqb_eq in E. subst. tauto.
  - rewrite IH; tauto.
Qed.

Lemma dict_set_keys k v (d : dict) :
  map fst (dict_set k v d) = map fst d \/
  (~ In k (map fst d) /\ map fst (dict_set k v d) = map fst d ++ [k]).
Proof.
  induction d as [|[k' v'] d IH]; simpl.
  - right. tauto.
  - destruct (str_eqb k k') eqn:E; simpl; [now left|].
    apply str_eqb_neq in E.
    destruct IH as [->|[Hn ->]]; [now left|right].
    split; [|reflexivity]. intros [H|H]; congruence.
Qed.

Lemma NoDup_snoc (A : Type) (l : list A) (x : A) :
  NoDup l -> ~ In x l -> NoDup (l ++ [x]).
Proof.
  induction l as [|a l IH]; simpl; intros Hl Hx.
  - constructor; [tauto|constructor].
  - inversion Hl; subst. constructor.
    + rewrite in_app_iff. simpl. intros [H|[H|[]]]; [tauto|subst; tauto].
    + apply IH; tauto.
Qed.

Lemma dict_set_NoDup k v (d : dict) :
  NoDup (map fst d) -> NoDup (map fst (dict_set k v d)).
Proof.
  intros H. destruct (dict_set_keys k v d) as [->|[Hn ->]]; [exact H|].
  now apply NoDup_snoc.
Qed.

Lemma dict_set_Forall (P : str * Item.t -> Prop) k v (d : dict) :
  Forall P d -> P (k, v) -> Forall P (dict_set k v d).
Proof.
  intros Hd Hv. induction Hd as [|[k' v'] d Hk Hd IH]; simpl.
  - now constructor.
  - destruct (str_eqb k k') eqn:E.
    + apply str_eqb_eq in E. subst. now constructor.
    + now constructor.
Qed.

Lemma dict_get_set_same k v (d : dict) : dict_get k (dict_set k v d) = Some v.
Proof.
  induction d as [|[k' v'] d IH]; simpl.
  - now rewrite str_eqb_refl.
  - destruct (str_eqb k k') eqn:E; simpl; now rewrite E.
Qed.

Lemma dict_get_set_keeps k k' v (d : dict) :
  dict_get k d <> None -> dict_get k (dict_set k' v d) <> None.
Proof.
  induction d as [|[k1 v1] d IH]; simpl; [congruence|].
  destruct (str_eqb k' k1) eqn:E; simpl;
    destruct (str_eqb k k1); try discriminate; trivial.
Qed.

Lemma dict_get_stored k item (m : dict) :
  dict_get k m = Some item ->
  dict_get k (map stored_entry m) = Some (snd (stored_entry (k, item))).
Proof.
  induction m as [|[k' v'] m IH]; simpl; [discriminate|].
  destruct (str_eqb k k') eqn:E; [|exact IH].
  apply str_eqb_eq in E. subst. intros H. now injection H as ->.
Qed.

Lemma stored_entry_keys (m : dict) : map fst (map stored_entry m) = map fst m.
Proof.
  induction m as [|[k v] m IH]; simpl; [reflexivity|]. now rewrite IH.
Qed.

(** ** Rendering *)

Lemma render_eq (m : dict) :
  render m = HEADER ++ concat (map render_line m) ++ FOOTER.
Proof.
  unfold render. fold HEADER. rewrite app_assoc. f_equal.
  generalize HEADER as acc. induction m as [|[k item] m IH]; intros acc.
  - simpl. now rewrite app_nil_r.
  - cbn [fold_left map concat]. rewrite IH.
    change (render_line (k, item))
      with (match Item.text item with
            | None => []
            | Some content =>
                start_key k ++ nl ++ lit " * " ++ strip content ++ end_key k
            end).
    destruct (Item.text item); [symmetry; apply app_assoc|reflexivity].
Qed.

Lemma inert_HEADER : inert HEADER = true.
Proof. reflexivity. Qed.

Lemma inert_FOOTER : inert FOOTER = true.
Proof. reflexivity. Qed.

Lemma findall_FOOTER : findall SECTION_RE FOOTER = [].
Proof. rewrite <- (app_nil_r FOOTER), findall_inert; [reflexivity|exact inert_FOOTER]. Qed.

Lemma render_line_section e :
  renderable e -> render_line e = section_text (rendered_section e).
Proof.
  destruct e as [k item]. intros (_ & t & Ht & _).
  unfold render_line, rendered_section, section_text. rewrite Ht.
  now rewrite app_nil_r, <- !app_assoc.
Qed.

Lemma rendered_section_ok e : renderable e -> section_ok (rendered_section e).
Proof.
  destruct e as [k item]. intros (Hk & t & Ht & Hfree & _).
  unfold rendered_section, section_ok. rewrite Ht.
  repeat split; [exact Hk|now apply rendered_line_no_end_marker].
Qed.

Lemma rendered_section_entry e :
  renderable e -> section_entry (rendered_section e) = stored_entry e.
Proof.
  destruct e as [k item]. intros (_ & t & Ht & _ & Hb & Hd).
  unfold rendered_section, section_entry, stored_entry, parsed_item.
  rewrite Ht, Hd. cbn [option_map]. now rewrite stored_text_rendered.
Qed.

Lemma rendered_section_key e : section_key (rendered_section e) = fst e.
Proof. now destruct e. Qed.

(** ** The parsing loop *)

Lemma collect_items_cons k1 c k3 ms acc :
  collect_items ([k1; c; k3] :: ms) acc =
  if str_eqb k1 k3 then collect_items ms (dict_set k1 (parsed_item k1 c) acc)
  else Raise (malformed k1 k3).
Proof. reflexivity. Qed.

Lemma collect_sections secs : forall acc,
  collect_items (map section_match secs) acc
  = Ok (fold_left (fun d sec => dict_set (section_key sec) (snd (section_entry sec)) d)
          secs acc).
Proof.
  induction secs as [|[[k c] gap] secs IH]; intros acc; [reflexivity|].
  cbn [map section_match fold_left].
  now rewrite collect_items_cons, str_eqb_refl, IH.
Qed.

Lemma fold_dict_set_fresh secs : forall acc,
  NoDup (map fst acc ++ map section_key secs) ->
  fold_left (fun d sec => dict_set (section_key sec) (snd (section_entry sec)) d)
    secs acc
  = acc ++ map section_entry secs.
Proof.
  induction secs as [|[[k c] gap] secs IH]; intros acc H.
  - simpl. now rewrite app_nil_r.
  - cbn [fold_left map]. cbn [map section_key] in H.
    rewrite dict_set_fresh.
    + rewrite IH.
      * rewrite <- app_assoc. reflexivity.
      * rewrite map_app, <- app_assoc. exact H.
    + apply NoDup_remove_2 in H. rewrite in_app_iff in H.
      cbn [section_key]. tauto.
Qed.

Lemma collect_items_inv ms : forall acc m,
  (forall caps, In caps ms ->
     exists k1 c k3, caps = [k1; c; k3] /\ start_key_ok k1 = true
                     /\ end_key_ok k3 = true /\ ~ has_end_marker c) ->
  NoDup (map fst acc) -> Forall parsed_ok acc ->
  collect_items ms acc = Ok m ->
  NoDup (map fst m) /\ Forall parsed_ok m.
Proof.
  induction ms as [|caps ms IH]; intros acc m Hms Hnd Hacc.
  - simpl. intros E. injection E as <-. now split.
  - destruct (Hms caps (or_introl eq_refl)) as (k1 & c & k3 & -> & Hk & _ & Hc).
    rewrite collect_items_cons. destruct (str_eqb k1 k3); [|discriminate].
    apply IH.
    + intros caps H. apply Hms. now right.
    + now apply dict_set_NoDup.
    + apply dict_set_Forall; [exact Hacc|].
      unfold parsed_ok, parsed_item. cbn [Item.key Item.text Item.is_done].
      repeat split; [exact Hk|]. exists (stored_text c).
      repeat split; [|apply stored_text_no_bullet].
      intros M. apply Hc. destruct (stored_text_inside c) as (x & y & ->).
      now apply has_end_marker_app.
Qed.

Lemma parse_body_inv body m :
  parse_body body = Ok m -> NoDup (map fst m) /\ Forall parsed_ok m.
Proof.
  apply collect_items_inv; [|constructor|constructor].
  intros caps H. now apply findall_In in H.
Qed.

Lemma parse_rendered (m : dict) :
  NoDup (map fst m) -> Forall renderable m ->
  parse_body (render m) = Ok (map stored_entry m).
Proof.
  intros Hnd Hm. unfold parse_body.
  rewrite render_eq, findall_inert by exact inert_HEADER.
  assert (Hlines : map render_line m = map section_text (map rendered_section m)).
  { rewrite map_map. apply map_ext_in. intros e He.
    apply render_line_section. rewrite Forall_forall in Hm. now apply Hm. }
  rewrite Hlines, findall_sections, findall_FOOTER, app_nil_r.
  - rewrite collect_sections, fold_dict_set_fresh.
    + simpl. f_equal. rewrite map_map. apply map_ext_in. intros e He.
      apply rendered_section_entry. rewrite Forall_forall in Hm. now apply Hm.
    + simpl. rewrite map_map.
      rewrite (map_ext _ fst rendered_section_key). exact Hnd.
  - rewrite Forall_forall in *. intros sec Hs.
    apply in_map_iff in Hs as (e & <- & He). apply rendered_section_ok.
    now apply Hm.
Qed.

Lemma same_sections_stored (m : dict) : same_sections m (map stored_entry m).
Proof.
  split; [apply stored_entry_keys|]. intros k item H.
  exists (snd (stored_entry (k, item))). split; [now apply dict_get_stored|].
  now split.
Qed.

Lemma parsed_trimmed_renderable e :
  parsed_ok e -> (forall t, Item.text (snd e) = Some t -> strip t = t) ->
  renderable e /\ stored_entry e = e.
Proof.
  destruct e as [k item]. intros (Hk & Hkey & t & Ht & Hfree & Hb & Hd) Htrim.
  specialize (Htrim t Ht). split.
  - split; [exact Hk|]. exists t. rewrite Htrim. now repeat split.
  - destruct item as [key text done]. simpl in *. subst. simpl. now rewrite Htrim.
Qed.

(** ** Round trip *)

(** Goals [forall k item t, In (k, item) m -> Item.text item = Some t -> P t]
    over a literal [m]. *)
Ltac each_text :=
  let E := fresh "E" in
  let Ht := fresh "Ht" in
  intros ? ? ? E Ht; simpl in E;
  repeat (destruct E as [E|E]; [injection E as <- <-; simpl in Ht|]);
  try contradiction.

Ltac no_end_marker :=
  let M := fresh "M" in
  intros M; apply find_end_marker_complete in M; vm_compute in M; discriminate M.

(** C1 (as amended). For a section map without duplicate keys whose every
    entry has a key of the start-marker class [[a-z][a-z-]+], a text that is
    present, contains no end marker and does not begin with an asterisk once
    trimmed, and a done flag equal to the presence of the key's done marker
    in the text: parsing the rendered body succeeds and returns the same keys
    in the same order, each with the trimmed text and the same done flag. *)
Theorem render_parse_roundtrip (m : dict) :
  NoDup (map fst m) -> Forall renderable m ->
  parse_body (render m) = Ok (map stored_entry m)
  /\ same_sections m (map stored_entry m).
Proof.
  intros Hnd Hm. split; [now apply parse_rendered|apply same_sections_stored].
Qed.

Lemma render_parse_roundtrip_witness :
  parse_body (render ex_map) = Ok (map stored_entry ex_map)
  /\ same_sections ex_map (map stored_entry ex_map).
Proof.
  apply (render_parse_roundtrip ex_map).
  - repeat constructor; simpl; intuition discriminate.
  - repeat constructor; try reflexivity.
    + exists (lit " Build passed "). repeat split; try reflexivity. no_end_marker.
    + exists (lit "Docs built <!--bot-item-docs-done-->").
      repeat split; try reflexivity. no_end_marker.
Defined.

(** The rendered body carries the leading sentinel, so the comment the bot
    posts is the one [find_bot_comment] looks for, and [find_existing_body]
    reads the rendered sections back from it. *)
Lemma render_has_sentinel (m : dict) : str_in BOT_COMMENT_START (render m) = true.
Proof.
  apply str_in_iff. exists [], (nl ++ nl ++ WELCOME_TEXT ++ nl ++ nl
                                ++ concat (map render_line m) ++ FOOTER).
  rewrite render_eq. unfold HEADER. now rewrite <- !app_assoc.
Qed.

Lemma find_existing_body_rendered (self : BotCommentBuilder) (c : Comment) (m : dict) :
  find_bot_comment self = Some c -> body c = render m ->
  NoDup (map fst m) -> Forall renderable m ->
  find_existing_body self = Ok (map stored_entry m).
Proof.
  intros Hc Hb Hnd Hm. unfold find_existing_body. rewrite Hc, Hb.
  now apply parse_rendered.
Qed.

(** C1 as stated fails: with texts free of any marker, a done flag that the
    text does not carry, an absent text and a one-letter key are each lost
    by rendering and parsing. *)
Lemma render_parse_roundtrip_counterexample :
  (texts_plain ex_flag_map /\ ~ roundtrips ex_flag_map)
  /\ (texts_plain ex_none_map /\ ~ roundtrips ex_none_map)
  /\ (texts_plain ex_letter_map /\ ~ roundtrips ex_letter_map).
Proof.
  repeat split.
  - each_text. injection Ht as <-. reflexivity.
  - intros (m' & E & _ & H). vm_compute in E. injection E as <-.
    destruct (H (lit "ci") _ eq_refl) as (item' & G & _ & D).
    vm_compute in G. injection G as <-. discriminate D.
  - each_text. discriminate Ht.
  - intros (m' & E & K & _). vm_compute in E. injection E as <-. discriminate K.
  - each_text. injection Ht as <-. reflexivity.
  - intros (m' & E & K & _). vm_compute in E. injection E as <-. discriminate K.
Qed.

(** ** Malformed comments *)

Lemma collect_items_mismatch ms : forall acc start text end_,
  (forall caps, In caps ms -> exists k1 c k3, caps = [k1; c; k3]) ->
  In [start; text; end_] ms -> start <> end_ ->
  exists s e, s <> e /\ collect_items ms acc = Raise (malformed s e).
Proof.
  induction ms as [|caps ms IH]; intros acc start text end_ Hms Hin Hne;
    [contradiction|].
  destruct (Hms caps (or_introl eq_refl)) as (k1 & c & k3 & ->).
  rewrite collect_items_cons. destruct (str_eqb k1 k3) eqn:E.
  - apply str_eqb_eq in E. subst k3. destruct Hin as [Hin|Hin].
    + injection Hin as -> _ ->. congruence.
    + apply (IH _ start text end_); trivial. intros caps H. apply Hms. now right.
  - apply str_eqb_neq in E. now exists k1, k3.
Qed.

(** Seen from the scan: a match whose two keys differ makes the loop raise
    the malformed-comment error. *)
Lemma mismatched_keys_raise (comment_body start text end_ : str) :
  In [start; text; end_] (findall SECTION_RE comment_body) ->
  start <> end_ ->
  exists s e, s <> e /\ parse_body comment_body = Raise (malformed s e).
Proof.
  intros Hin Hne. unfold parse_body.
  apply (collect_items_mismatch _ [] start text end_); trivial.
  intros caps H. apply findall_In in H as (k1 & c & k3 & -> & _).
  now exists k1, c, k3.
Qed.

Lemma mismatched_keys_raise_witness :
  exists s e, s <> e /\ parse_body ex_mismatched_body = Raise (malformed s e).
Proof.
  apply (mismatched_keys_raise ex_mismatched_body (lit "foo") (lit "x") (lit "bar")).
  - vm_compute. left. reflexivity.
  - discriminate.
Defined.

(** The same on the text: a first section opened for one key and closed for
    another makes the whole parse fail with that pair of keys. *)
Lemma mismatched_section_raises lead k1 c k3 rest :
  inert lead = true -> start_key_ok k1 = true -> end_key_ok k3 = true ->
  ~ has_end_marker c -> k1 <> k3 ->
  parse_body (lead ++ start_key k1 ++ c ++ end_key k3 ++ rest)
  = Raise (malformed k1 k3).
Proof.
  intros Hl H1 H3 Hc Hne. unfold parse_body.
  rewrite findall_inert, findall_section, collect_items_cons; trivial.
  apply str_eqb_neq in Hne. now rewrite Hne.
Qed.

(** The scan up to a section that follows text where no marker begins and
    sections with matching keys. *)
Lemma findall_after_sections lead secs k1 c k3 rest :
  inert lead = true -> Forall section_ok secs ->
  start_key_ok k1 = true -> end_key_ok k3 = true -> ~ has_end_marker c ->
  findall SECTION_RE
    (lead ++ concat (map section_text secs)
     ++ start_key k1 ++ c ++ end_key k3 ++ rest)
  = map section_match secs ++ [k1; c; k3] :: findall SECTION_RE rest.
Proof.
  intros Hl Hs H1 H3 Hc.
  now rewrite findall_inert, findall_sections, findall_section.
Qed.

Lemma collect_items_raise_after secs k1 c k3 ms : forall acc,
  k1 <> k3 ->
  collect_items (map section_match secs ++ [k1; c; k3] :: ms) acc
  = Raise (malformed k1 k3).
Proof.
  induction secs as [|[[k x] gap] secs IH]; intros acc Hne.
  - cbn [map app]. rewrite collect_items_cons.
    apply str_eqb_neq in Hne. now rewrite Hne.
  - cbn [map section_match app]. rewrite collect_items_cons, str_eqb_refl.
    now apply IH.
Qed.

(** C2 (as amended). In a comment body made of text where no marker begins,
    then any number of delimited sections with matching keys, each followed
    by text where no marker begins, then a delimited section (a start marker
    with a key of the class [[a-z][a-z-]+], a content without end marker, an
    end marker with a key of the class [[a-z-]+]) whose two keys differ,
    then anything: parsing raises the malformed-comment error that names the
    two keys, and returns no mapping. *)
Theorem first_mismatched_section_raises (lead : str)
    (secs : list (str * str * str)) (k1 c k3 rest : str) :
  inert lead = true -> Forall section_ok secs ->
  start_key_ok k1 = true -> end_key_ok k3 = true -> ~ has_end_marker c ->
  k1 <> k3 ->
  parse_body (lead ++ concat (map section_text secs)
              ++ start_key k1 ++ c ++ end_key k3 ++ rest)
  = Raise (malformed k1 k3).
Proof.
  intros Hl Hs H1 H3 Hc Hne. unfold parse_body.
  rewrite findall_after_sections by assumption.
  now apply collect_items_raise_after.
Qed.

Lemma first_mismatched_section_raises_witness :
  parse_body ex_late_mismatch_body = Raise (malformed (lit "foo") (lit "bar")).
Proof.
  apply (first_mismatched_section_raises (BOT_COMMENT_START ++ nl)
           [ (lit "ci", nl ++ lit " * Build pending", nl) ]
           (lit "foo") (lit "x") (lit "bar") (lit " and more")).
  - reflexivity.
  - repeat constructor; try reflexivity; no_end_marker.
  - reflexivity.
  - reflexivity.
  - no_end_marker.
  - discriminate.
Defined.

(** C2 as stated fails: a body can contain a delimited section whose keys
    differ and still parse.  Here the start marker of [foo] lies inside the
    section of [aa]: the scan matches from the start marker of [aa] to the
    first end marker, which is the one of [aa], and never looks at [foo]. *)
Lemma first_mismatched_section_raises_counterexample :
  has_mismatched_section ex_nested_body
  /\ parse_body ex_nested_body
     = Ok [ (lit "aa",
             Item.mk (lit "aa") (Some (start_key (lit "foo") ++ lit "x")) false) ].
Proof.
  split.
  - exists (BOT_COMMENT_START ++ start_key (lit "aa")), (lit "foo"), (lit "x"),
      (lit "aa"), [].
    repeat split; try reflexivity; [no_end_marker|discriminate].
  - vm_compute. reflexivity.
Qed.

(** ** Publishing *)

Lemma opt_out_iff (self : BotCommentBuilder) (env : Env) :
  existsb (str_eqb (author self)) (OPT_OUT_USERS env) = true
  <-> In (author self) (OPT_OUT_USERS env).
Proof.
  rewrite existsb_exists. split.
  - intros (x & Hx & E). apply str_eqb_eq in E. now subst.
  - intros H. exists (author self). split; [exact H|apply str_eqb_refl].
Qed.

Lemma not_suppressed (self : BotCommentBuilder) (env : Env) :
  ~ suppressed self env ->
  existsb (str_eqb (author self)) (OPT_OUT_USERS env) = false
  /\ str_eqb (getenv (SKIP_COMMENT env) []) (lit "1") = false.
Proof.
  intros H. split.
  - destruct (existsb _ _) eqn:E; [|reflexivity].
    apply opt_out_iff in E. exfalso. apply H. now left.
  - apply str_eqb_neq. intros E. apply H. now right.
Qed.

(** C3. When publishing is not suppressed, [_post_comment] sends exactly one
    request: a create carrying the rendered body when there is no bot comment,
    an update of the located comment, addressed by its database id and
    carrying the rendered body, when there is one. *)
Theorem publish_creates_or_updates (self : BotCommentBuilder) (env : Env)
    (body_items : dict) :
  ~ suppressed self env ->
  _post_comment self env body_items =
  match find_bot_comment self with
  | None =>
      [post (lit "issues/" ++ str_of_int (pr_number self) ++ lit "/comments")
            (render body_items)]
  | Some existing_comment =>
      [patch (lit "issues/comments/" ++ str_of_int (databaseId existing_comment))
             (render body_items)]
  end.
Proof.
  intros H. apply not_suppressed in H as [H1 H2].
  unfold _post_comment. rewrite H1, H2. reflexivity.
Qed.

Lemma publish_creates_or_updates_witness :
  _post_comment ex_builder ex_env ex_flag_map
  = [patch (lit "issues/comments/42") (render ex_flag_map)]
  /\ _post_comment ex_new_builder ex_env ex_flag_map
     = [post (lit "issues/1234/comments") (render ex_flag_map)].
Proof.
  split.
  - apply (publish_creates_or_updates ex_builder ex_env ex_flag_map).
    intros [H|H]; [contradiction|discriminate H].
  - apply (publish_creates_or_updates ex_new_builder ex_env ex_flag_map).
    intros [H|H]; [contradiction|discriminate H].
Defined.

(** The update of the specification's example: the [ci] section of the body
    sent reads the new text, and the old text is gone. *)
Example update_replaces_section :
  exists sent,
    post_items ex_builder ex_env [Item.mk (lit "ci") (Some (lit "Build passed")) false]
    = ([patch (lit "issues/comments/42") sent], Ok tt)
    /\ str_in (start_key (lit "ci") ++ nl ++ lit " * Build passed" ++ end_key (lit "ci"))
         sent = true
    /\ str_in (lit "Build pending") sent = false.
Proof. eexists. repeat split; vm_compute; reflexivity. Qed.

(** C4. When the author of the pull request has opted out, or commenting is
    switched off, [_post_comment] returns without sending a request, whatever
    the items, and so does [post_items]. *)
Theorem publish_suppressed_sends_nothing (self : BotCommentBuilder) (env : Env) :
  suppressed self env ->
  (forall body_items, _post_comment self env body_items = [])
  /\ (forall items, fst (post_items self env items) = []).
Proof.
  intros H.
  assert (P : forall body_items, _post_comment self env body_items = []).
  { intros body_items. unfold _post_comment. destruct H as [H|H].
    - apply opt_out_iff in H. now rewrite H.
    - rewrite H. destruct (existsb _ _); reflexivity. }
  split; [exact P|]. intros items. unfold post_items.
  destruct (find_existing_body self); [apply P|reflexivity].
Qed.

Lemma publish_suppressed_sends_nothing_witness :
  (forall body_items, _post_comment ex_builder ex_opt_out_env body_items = [])
  /\ (forall items, fst (post_items ex_builder ex_opt_out_env items) = []).
Proof.
  apply (publish_suppressed_sends_nothing ex_builder ex_opt_out_env).
  left. simpl. right. left. reflexivity.
Defined.

(** ** Merging *)

Lemma update_items_app (a b : list Item.t) : forall body_items,
  update_items (a ++ b) body_items = update_items b (update_items a body_items).
Proof.
  induction a as [|item a IH]; intros body_items; [reflexivity|].
  simpl. destruct (Item.text item) as [t|]; [|apply IH].
  destruct (str_eqb (strip t) []); apply IH.
Qed.

Lemma update_items_blank (item : Item.t) (body_items : dict) :
  blank (Item.text item) = true -> update_items [item] body_items = body_items.
Proof.
  unfold blank. simpl. destruct (Item.text item) as [t|]; [|reflexivity].
  now intros ->.
Qed.

(** C5. An update item whose text is absent, or blank once trimmed, is
    skipped: merging it alone leaves the section map as it was, its own key
    included, and within a longer update list it can be dropped. *)
Theorem blank_item_skipped (item : Item.t) (body_items : dict) :
  blank (Item.text item) = true ->
  update_items [item] body_items = body_items
  /\ dict_get (Item.key item) (update_items [item] body_items)
     = dict_get (Item.key item) body_items
  /\ forall before after,
       update_items (before ++ item :: after) body_items
       = update_items (before ++ after) body_items.
Proof.
  intros H. split; [|split].
  - now apply update_items_blank.
  - now rewrite update_items_blank.
  - intros before after. rewrite !update_items_app.
    change (item :: after) with ([item] ++ after).
    now rewrite update_items_app, update_items_blank.
Qed.

Lemma blank_item_skipped_witness :
  let item := Item.mk (lit "ci") (Some (nl ++ lit "  ")) true in
  update_items [item] ex_body_items = ex_body_items
  /\ dict_get (Item.key item) (update_items [item] ex_body_items)
     = dict_get (Item.key item) ex_body_items
  /\ forall before after,
       update_items (before ++ item :: after) ex_body_items
       = update_items (before ++ after) ex_body_items.
Proof.
  intros item. apply (blank_item_skipped item ex_body_items). reflexivity.
Defined.

(** C6 (as amended). For a section map parsed from a comment body in which
    every text is its own trimmed form, merging the empty update list leaves
    the map unchanged, and rendering the result and parsing it again returns
    that very map: keys, order, texts and done flags. *)
Theorem empty_merge_idempotent (comment_body : str) (m : dict) :
  parse_body comment_body = Ok m -> texts_trimmed m ->
  update_items [] m = m /\ parse_body (render (update_items [] m)) = Ok m.
Proof.
  intros Hp Ht. split; [reflexivity|]. cbn [update_items].
  apply parse_body_inv in Hp as [Hnd Hok].
  assert (H : forall e, In e m -> renderable e /\ stored_entry e = e).
  { intros [k item] He. apply parsed_trimmed_renderable.
    - rewrite Forall_forall in Hok. now apply Hok.
    - intros t. now apply (Ht k item t). }
  rewrite parse_rendered; trivial.
  - f_equal. rewrite <- (map_id m) at 2. apply map_ext_in. intros e He.
    now apply H.
  - apply Forall_forall. intros e He. now apply H.
Qed.

Lemma empty_merge_idempotent_witness :
  update_items [] ex_body_items = ex_body_items
  /\ parse_body (render (update_items [] ex_body_items)) = Ok ex_body_items.
Proof.
  apply (empty_merge_idempotent ex_body ex_body_items).
  - vm_compute. reflexivity.
  - unfold texts_trimmed. each_text; injection Ht as <-; vm_compute; reflexivity.
Defined.

(** C6 as stated fails on a comment edited by hand: the text parsed after a
    bullet that ends its line begins with that line break, and the next
    rendering trims it away. *)
Lemma empty_merge_idempotent_counterexample :
  let m := [(lit "ci", Item.mk (lit "ci") (Some (nl ++ lit "Build pending")) false)] in
  parse_body ex_edited_body = Ok m
  /\ update_items [] m = m
  /\ parse_body (render (update_items [] m))
     = Ok [(lit "ci", Item.mk (lit "ci") (Some (lit "Build pending")) false)]
  /\ parse_body (render (update_items [] m)) <> Ok m.
Proof.
  intros m. repeat split; try (vm_compute; reflexivity).
  vm_compute. discriminate.
Qed.

(** ** The stored text *)

(** C7: the code departs from the claim.  The parser removes every leading
    asterisk and space of the trimmed content, not one bullet prefix: a text
    that opens with bold markup loses its two asterisks, where removing one
    prefix would have kept them, and a body rendered from such a text does
    not read back. *)
Theorem bullet_strip_removes_markup :
  let raw := nl ++ lit " * **Build passed**" in
  stored_text raw = lit "Build passed**"
  /\ strip_one_bullet raw = lit "**Build passed**"
  /\ parse_body (render [(lit "ci", Item.mk (lit "ci") (Some (lit "**Build passed**")) false)])
     = Ok [(lit "ci", Item.mk (lit "ci") (Some (lit "Build passed**")) false)].
Proof. repeat split; vm_compute; reflexivity. Qed.

(** What the code does in general: the stored text never begins with an
    asterisk or a space. *)
Lemma stored_text_head raw c r :
  stored_text raw = c :: r -> c <> 42 /\ c <> 32.
Proof.
  unfold stored_text, lstrip. intros E. apply lstrip_by_head in E.
  simpl in E. rewrite !orb_false_iff in E. destruct E as (E1 & E2 & _).
  apply N.eqb_neq in E1, E2. now split.
Qed.

(** ** Recognised sections *)

Lemma fold_dict_set_has secs : forall acc k,
  dict_get k acc <> None \/ In k (map section_key secs) ->
  dict_get k
    (fold_left (fun d sec => dict_set (section_key sec) (snd (section_entry sec)) d)
       secs acc) <> None.
Proof.
  induction secs as [|sec secs IH]; intros acc k H.
  - destruct H as [H|[]]. exact H.
  - cbn [fold_left]. apply IH. cbn [map] in H.
    destruct H as [H|[H|H]].
    + left. now apply dict_get_set_keeps.
    + left. subst k. now rewrite dict_get_set_same.
    + now right.
Qed.

(** C8 (as amended). In a body made of text where no marker begins followed
    by delimited sections, each with a key of the class [[a-z][a-z-]+] used
    in both markers, a content (of one or several lines) that contains no end
    marker, and a gap where no marker begins, the scan finds every section,
    in order, with its key and its content; parsing succeeds and the result
    has an entry for every key, and exactly the sections' entries when the
    keys are distinct. *)
Theorem sections_recognised (lead : str) (secs : list (str * str * str)) :
  inert lead = true -> Forall section_ok secs ->
  findall SECTION_RE (lead ++ concat (map section_text secs))
  = map section_match secs
  /\ exists m,
       parse_body (lead ++ concat (map section_text secs)) = Ok m
       /\ (forall sec, In sec secs -> dict_get (section_key sec) m <> None)
       /\ (NoDup (map section_key secs) -> m = map section_entry secs).
Proof.
  intros Hl Hs.
  assert (F : findall SECTION_RE (lead ++ concat (map section_text secs))
              = map section_match secs).
  { rewrite findall_inert by exact Hl.
    rewrite <- (app_nil_r (concat _)), findall_sections by exact Hs.
    apply app_nil_r. }
  split; [exact F|]. unfold parse_body. rewrite F, collect_sections.
  eexists. split; [reflexivity|]. split.
  - intros sec Hin. apply fold_dict_set_has. right. now apply in_map.
  - intros Hnd. now rewrite fold_dict_set_fresh.
Qed.

Lemma sections_recognised_witness :
  findall SECTION_RE ((BOT_COMMENT_START ++ nl) ++ concat (map section_text ex_sections))
  = map section_match ex_sections
  /\ exists m,
       parse_body ((BOT_COMMENT_START ++ nl) ++ concat (map section_text ex_sections))
       = Ok m
       /\ (forall sec, In sec ex_sections -> dict_get (section_key sec) m <> None)
       /\ (NoDup (map section_key ex_sections) -> m = map section_entry ex_sections).
Proof.
  apply (sections_recognised (BOT_COMMENT_START ++ nl) ex_sections).
  - reflexivity.
  - repeat constructor; try reflexivity; no_end_marker.
Defined.

(** C8 as stated fails: a key of one letter, or one that begins with a
    hyphen, is in the class of lowercase letters and hyphens, yet its section
    is not found; and a content that holds the end marker of another key makes
    the parse fail. *)
Lemma sections_recognised_counterexample :
  (forallb lower_or_hyphen (lit "a") = true
   /\ parse_body (start_key (lit "a") ++ lit "x" ++ end_key (lit "a")) = Ok [])
  /\ (forallb lower_or_hyphen (lit "-ci") = true
      /\ parse_body (start_key (lit "-ci") ++ lit "x" ++ end_key (lit "-ci")) = Ok [])
  /\ parse_body (start_key (lit "ci") ++ (lit "x" ++ end_key (lit "docs") ++ lit "y")
                 ++ end_key (lit "ci"))
     = Raise (malformed (lit "ci") (lit "docs")).
Proof. repeat split; vm_compute; reflexivity. Qed.

(** ** Locating the bot comment *)

Lemma is_bot_comment_iff (self : BotCommentBuilder) (comment : Comment) :
  is_bot_comment self comment = true <-> is_bot self comment.
Proof.
  unfold is_bot_comment, is_bot.
  now rewrite andb_true_iff, str_eqb_eq, str_in_iff.
Qed.

(** C9. [find_bot_comment] returns the first comment, in the order of the
    list, written by the bot and containing the leading sentinel: every
    comment before it fails one of the two conditions.  It returns [None]
    when no comment meets both.  It only reads the comments. *)
Theorem find_bot_comment_first (self : BotCommentBuilder) :
  match find_bot_comment self with
  | Some comment =>
      exists before after,
        comment_data self = before ++ comment :: after
        /\ is_bot self comment
        /\ forall c, In c before -> ~ is_bot self c
  | None => forall c, In c (comment_data self) -> ~ is_bot self c
  end.
Proof.
  unfold find_bot_comment. induction (comment_data self) as [|c0 cs IH]; simpl.
  - intros c [].
  - destruct (is_bot_comment self c0) eqn:E.
    + exists [], cs. split; [reflexivity|].
      split; [now apply is_bot_comment_iff|intros c []].
    + assert (N : ~ is_bot self c0).
      { intros H. apply is_bot_comment_iff in H. congruence. }
      destruct (first_bot_comment self cs) as [c|].
      * destruct IH as (before & after & -> & Hc & Hb).
        exists (c0 :: before), after. split; [reflexivity|].
        split; [exact Hc|]. intros c' [<-|H]; [exact N|now apply Hb].
      * intros c [<-|H]; [exact N|now apply IH].
Qed.

Example find_bot_comment_example :
  find_bot_comment ex_builder = Some (mkComment (lit "tvm-bot") ex_body 42)
  /\ find_bot_comment ex_new_builder = None.
Proof. split; reflexivity. Qed.

(** ** The done status *)



Example is_done_examples :
  is_done ex_builder (lit "docs") = Ok true
  /\ is_done ex_builder (lit "ci") = Ok false
  /\ is_done ex_new_builder (lit "ci") = Ok false.
Proof. repeat split; vm_compute; reflexivity. Qed.

(** * Further properties of the module *)

(** ** Assignments to a dictionary *)

Lemma dict_get_set k k' v (d : dict) :
  dict_get k (dict_set k' v d) = if str_eqb k k' then Some v else dict_get k d.
Proof.
  induction d as [|[k1 v1] d IH]; simpl; [reflexivity|].
  destruct (str_eqb k' k1) eqn:E1; simpl.
  - apply str_eqb_eq in E1. subst k1. now destruct (str_eqb k k').
  - rewrite IH. destruct (str_eqb k k1) eqn:E2; [|reflexivity].
    destruct (str_eqb k k') eqn:E3; [|reflexivity].
    apply str_eqb_eq in E2, E3. subst. now rewrite str_eqb_refl in E1.
Qed.

Lemma dict_get_update k kvs : forall d,
  dict_get k (dict_update d kvs)
  = match last_binding k kvs with
    | Some v => Some v
    | None => dict_get k d
    end.
Proof.
  induction kvs as [|[k' v] kvs IH]; intros d; [reflexivity|].
  change (dict_update d ((k', v) :: kvs)) with (dict_update (dict_set k' v d) kvs).
  rewrite IH. simpl. destruct (last_binding k kvs); [reflexivity|].
  rewrite dict_get_set. now destruct (str_eqb k k').
Qed.

Lemma dict_get_In k v (d : dict) : dict_get k d = Some v -> In (k, v) d.
Proof.
  induction d as [|[k' v'] d IH]; simpl; [discriminate|].
  destruct (str_eqb k k') eqn:E.
  - apply str_eqb_eq in E. intros H. injection H as ->. subst. now left.
  - intros H. right. now apply IH.
Qed.

Lemma dict_get_None_iff k (d : dict) :
  dict_get k d = None <-> ~ In k (map fst d).
Proof.
  induction d as [|[k' v'] d IH]; simpl; [tauto|].
  destruct (str_eqb k k') eqn:E.
  - apply str_eqb_eq in E. subst. split; [discriminate|tauto].
  - apply str_eqb_neq in E. rewrite IH. split; [intros H [H1|H1]|]; try tauto.
    congruence.
Qed.

Lemma last_binding_None_iff k kvs :
  last_binding k kvs = None <-> ~ In k (map fst kvs).
Proof.
  induction kvs as [|[k' v] kvs IH]; simpl; [tauto|].
  destruct (last_binding k kvs).
  - split; [discriminate|]. intros H. exfalso. apply H. right.
    destruct (in_dec (list_eq_dec N.eq_dec) k (map fst kvs)) as [i|n]; [exact i|].
    apply IH in n. discriminate n.
  - destruct (str_eqb k k') eqn:E.
    + apply str_eqb_eq in E. subst. split; [discriminate|tauto].
    + apply str_eqb_neq in E. split; [|reflexivity].
      intros _ [H|H]; [congruence|]. now apply IH in H.
Qed.

Lemma last_binding_app k kvs1 kvs2 :
  last_binding k (kvs1 ++ kvs2)
  = match last_binding k kvs2 with
    | Some v => Some v
    | None => last_binding k kvs1
    end.
Proof.
  induction kvs1 as [|[k' v] kvs1 IH]; simpl.
  - now destruct (last_binding k kvs2).
  - rewrite IH. now destruct (last_binding k kvs2).
Qed.

Lemma dict_update_NoDup kvs : forall d,
  NoDup (map fst d) -> NoDup (map fst (dict_update d kvs)).
Proof.
  induction kvs as [|[k v] kvs IH]; intros d H; [exact H|].
  apply IH. now apply dict_set_NoDup.
Qed.

Lemma dict_update_Forall (P : str * Item.t -> Prop) kvs : forall d,
  Forall P d -> Forall P kvs -> Forall P (dict_update d kvs).
Proof.
  induction kvs as [|[k v] kvs IH]; intros d Hd Hk; [exact Hd|].
  inversion Hk; subst. apply IH; [|assumption].
  now apply dict_set_Forall.
Qed.

(** The keys after the assignments: those of [d], in place, then new ones. *)
Lemma dict_update_keys kvs : forall d,
  exists added,
    map fst (dict_update d kvs) = map fst d ++ added
    /\ forall k, In k added -> ~ In k (map fst d) /\ In k (map fst kvs).
Proof.
  induction kvs as [|[k v] kvs IH]; intros d.
  - exists []. split; [now rewrite app_nil_r|intros k []].
  - destruct (IH (dict_set k v d)) as (added & E & H).
    change (dict_update d ((k, v) :: kvs)) with (dict_update (dict_set k v d) kvs).
    destruct (dict_set_keys k v d) as [K|[Hn K]]; rewrite K in E, H.
    + exists added. split; [exact E|]. intros k0 Hk. destruct (H k0 Hk).
      split; [assumption|]. now right.
    + exists (k :: added). rewrite <- app_assoc in E. split; [exact E|].
      intros k0 [<-|Hk]; [split; [exact Hn|now left]|].
      destruct (H k0 Hk) as [H1 H2]. rewrite in_app_iff in H1.
      split; [tauto|now right].
Qed.

Lemma dict_update_keys_present kvs : forall d,
  (forall k, In k (map fst kvs) -> In k (map fst d)) ->
  map fst (dict_update d kvs) = map fst d.
Proof.
  induction kvs as [|[k v] kvs IH]; intros d H; [reflexivity|].
  change (dict_update d ((k, v) :: kvs)) with (dict_update (dict_set k v d) kvs).
  assert (K : map fst (dict_set k v d) = map fst d).
  { destruct (dict_set_keys k v d) as [K|[Hn _]]; [exact K|].
    exfalso. apply Hn, H. now left. }
  rewrite IH; [exact K|]. intros k0 Hk. rewrite K. apply H. now right.
Qed.

(** Two dictionaries with the same keys in the same order and the same
    lookups are equal. *)
Lemma dict_ext (d1 : dict) : forall d2,
  NoDup (map fst d1) -> map fst d1 = map fst d2 ->
  (forall k, dict_get k d1 = dict_get k d2) -> d1 = d2.
Proof.
  induction d1 as [|[k v1] d1 IH]; intros [|[k2 v2] d2] Hnd Hk Hg;
    try discriminate; [reflexivity|].
  simpl in Hk. injection Hk as <- Hk. inversion Hnd as [|? ? Hn Hnd']; subst.
  pose proof (Hg k) as Hv. simpl in Hv. rewrite str_eqb_refl in Hv.
  injection Hv as <-. f_equal. apply IH; trivial.
  intros k0. specialize (Hg k0). simpl in Hg.
  destruct (str_eqb k0 k) eqn:E; [|exact Hg].
  apply str_eqb_eq in E. subst k0.
  pose proof Hn as Hn2. rewrite Hk in Hn2.
  apply dict_get_None_iff in Hn, Hn2. congruence.
Qed.

Lemma update_items_pending items : forall m,
  update_items items m = dict_update m (pending items).
Proof.
  induction items as [|item items IH]; intros m; [reflexivity|].
  simpl. destruct (Item.text item) as [t|]; [|apply IH].
  destruct (str_eqb (strip t) []); apply IH.
Qed.

Lemma pending_key k items :
  In k (map fst (pending items)) <->
  exists item, In item items /\ Item.key item = k /\ blank (Item.text item) = false.
Proof.
  induction items as [|item items IH]; simpl.
  - split; [intros []|intros (i & [] & _)].
  - assert (Skip : blank (Item.text item) = true ->
                   (In k (map fst (pending items)) <->
                    exists i, (item = i \/ In i items) /\ Item.key i = k
                              /\ blank (Item.text i) = false)).
    { intros Hb. rewrite IH. split.
      - intros (i & Hi & H). exists i. tauto.
      - intros (i & [<-|Hi] & Hk & Hn); [congruence|]. now exists i. }
    unfold blank in *. destruct (Item.text item) as [t|] eqn:Ht; [|now apply Skip].
    destruct (str_eqb (strip t) []) eqn:Et; [now apply Skip|].
    simpl. rewrite IH. split.
    + intros [<-|(i & Hi & H)].
      * exists item. rewrite Ht. tauto.
      * exists i. tauto.
    + intros (i & [<-|Hi] & Hk & Hn); [now left|right; now exists i].
Qed.

Lemma pending_app a b : pending (a ++ b) = pending a ++ pending b.
Proof.
  induction a as [|item a IH]; [reflexivity|]. simpl.
  destruct (Item.text item) as [t|]; [|exact IH].
  destruct (str_eqb (strip t) []); [exact IH|]. simpl. now rewrite IH.
Qed.

Lemma last_binding_pending_None k items :
  (forall it, In it items -> Item.key it = k -> blank (Item.text it) = true) ->
  last_binding k (pending items) = None.
Proof.
  intros H. apply last_binding_None_iff. intros Hin.
  apply pending_key in Hin as (it & Hi & Hk & Hb).
  rewrite (H it Hi Hk) in Hb. discriminate.
Qed.

Lemma strip_strip t : strip (strip t) = strip t.
Proof.
  unfold strip at 1.
  assert (E : lstrip_by isspace (strip t) = strip t).
  { destruct (strip t) as [|c r] eqn:U; [reflexivity|].
    apply strip_head in U. now apply lstrip_by_stop. }
  rewrite E. apply strip_rstrip.
Qed.

(** ** Merging: what [post_items] does to the section map *)

(** Last write wins: the entry of a key after the merge is the one made from
    the last item of that key whose text is not blank, with its text trimmed
    and the done flag the caller gave. *)
Theorem update_items_last_write (before after : list Item.t) (item : Item.t)
    (t : str) (m : dict) :
  Item.text item = Some t -> strip t <> [] ->
  (forall it, In it after -> Item.key it = Item.key item ->
              blank (Item.text it) = true) ->
  dict_get (Item.key item) (update_items (before ++ item :: after) m)
  = Some (Item.mk (Item.key item) (Some (strip t)) (Item.is_done item)).
Proof.
  intros Ht Hne Hafter.
  rewrite update_items_pending, dict_get_update, pending_app, last_binding_app.
  simpl. rewrite Ht. apply str_eqb_nil in Hne. rewrite Hne. simpl.
  rewrite last_binding_pending_None by exact Hafter.
  now rewrite str_eqb_refl.
Qed.

Lemma update_items_last_write_witness :
  dict_get (lit "ci") (update_items ex_items ex_body_items)
  = Some (Item.mk (lit "ci") (Some (lit "Build passed")) false).
Proof.
  apply (update_items_last_write
           [ Item.mk (lit "ci") (Some (lit "Build running")) false;
             Item.mk (lit "docs") (Some (lit "  ")) false;
             Item.mk (lit "lint") (Some (lit " Lint passed" ++ nl)) false ]
           []
           (Item.mk (lit "ci") (Some (lit "Build passed ")) false)
           (lit "Build passed ") ex_body_items).
  - reflexivity.
  - discriminate.
  - intros it [].
Defined.

(** A key for which every supplied item is blank keeps its entry, or its
    absence. *)
Theorem update_items_other_keys (k : str) (items : list Item.t) (m : dict) :
  (forall it, In it items -> Item.key it = k -> blank (Item.text it) = true) ->
  dict_get k (update_items items m) = dict_get k m.
Proof.
  intros H. rewrite update_items_pending, dict_get_update.
  now rewrite last_binding_pending_None.
Qed.

Lemma update_items_other_keys_witness :
  dict_get (lit "docs") (update_items ex_items ex_body_items)
  = dict_get (lit "docs") ex_body_items.
Proof.
  apply (update_items_other_keys (lit "docs") ex_items ex_body_items).
  intros it H Hk. simpl in H.
  repeat (destruct H as [<-|H]; [try discriminate Hk; try reflexivity|]).
  contradiction.
Defined.

(** The merge never removes or moves a section: the keys of the map stay in
    place, the keys it adds come after them, each new and taken from an item
    whose text is not blank, and no key is repeated. *)
Theorem update_items_keys (items : list Item.t) (m : dict) :
  exists added,
    map fst (update_items items m) = map fst m ++ added
    /\ (forall k, In k added ->
          ~ In k (map fst m)
          /\ exists item, In item items /\ Item.key item = k
                          /\ blank (Item.text item) = false)
    /\ (NoDup (map fst m) -> NoDup (map fst (update_items items m))).
Proof.
  rewrite update_items_pending.
  destruct (dict_update_keys (pending items) m) as (added & E & H).
  exists added. split; [exact E|]. split.
  - intros k Hk. destruct (H k Hk) as [H1 H2]. split; [exact H1|].
    now apply pending_key.
  - apply dict_update_NoDup.
Qed.

(** Merging the same items a second time changes nothing. *)
Theorem update_items_idempotent (items : list Item.t) (m : dict) :
  NoDup (map fst m) ->
  update_items items (update_items items m) = update_items items m.
Proof.
  intros Hnd. rewrite !update_items_pending.
  set (kvs := pending items). set (m1 := dict_update m kvs).
  assert (Hk : forall k, In k (map fst kvs) -> In k (map fst m1)).
  { intros k Hin.
    destruct (in_dec (list_eq_dec N.eq_dec) k (map fst m1)) as [i|n]; [exact i|].
    exfalso. apply dict_get_None_iff in n. unfold m1 in n.
    rewrite dict_get_update in n.
    destruct (last_binding k kvs) eqn:E; [discriminate|].
    now apply last_binding_None_iff in E. }
  apply dict_ext.
  - now apply dict_update_NoDup, dict_update_NoDup.
  - now apply dict_update_keys_present.
  - intros k. unfold m1. rewrite !dict_get_update.
    now destruct (last_binding k kvs).
Qed.

Lemma update_items_idempotent_witness :
  update_items ex_items (update_items ex_items ex_body_items)
  = update_items ex_items ex_body_items.
Proof.
  apply (update_items_idempotent ex_items ex_body_items).
  repeat constructor; simpl; intuition discriminate.
Defined.

Lemma pending_text_ok items : Forall text_ok (pending items).
Proof.
  induction items as [|item items IH]; simpl; [constructor|].
  destruct (Item.text item) as [t|] eqn:Ht; [|exact IH].
  destruct (str_eqb (strip t) []) eqn:E; [exact IH|].
  constructor; [|exact IH]. exists (strip t). simpl.
  repeat split; [apply strip_strip|now apply str_eqb_nil].
Qed.

(** The merge stores trimmed, non-empty texts only: a map whose entries all
    have such a text still has after the merge, whatever the items. *)
Theorem update_items_texts (items : list Item.t) (m : dict) :
  Forall text_ok m -> Forall text_ok (update_items items m).
Proof.
  intros H. rewrite update_items_pending.
  apply dict_update_Forall; [exact H|apply pending_text_ok].
Qed.

Lemma update_items_texts_witness :
  Forall text_ok (update_items ex_items ex_body_items).
Proof.
  apply (update_items_texts ex_items ex_body_items).
  repeat constructor.
  - exists (lit "Build pending"). repeat split; try reflexivity. discriminate.
  - exists (lit "Docs built" ++ nl ++ lit "<!--bot-item-docs-done-->").
    repeat split; try reflexivity. discriminate.
Defined.

(** ** Rendering: what the body depends on *)

Lemma render_lines_view (m : dict) :
  concat (map render_line m)
  = concat (map line_of_view (map render_view (filter has_text m))).
Proof.
  induction m as [|[k item] m IH]; [reflexivity|].
  cbn [map concat filter]. unfold has_text at 1. cbn [snd].
  change (render_line (k, item))
    with (match Item.text item with
          | None => []
          | Some content =>
              start_key k ++ nl ++ lit " * " ++ strip content ++ end_key k
          end).
  destruct (Item.text item) as [t|] eqn:Ht.
  - cbn [map concat]. unfold render_view at 1, line_of_view at 1.
    cbn [fst snd]. rewrite Ht. cbn [option_map]. now rewrite IH.
  - exact IH.
Qed.

(** The rendered body depends on the keys and the trimmed texts of the
    entries that have a text, in order, and on nothing else: not on the done
    flags, not on the [key] fields of the items, not on entries without text,
    not on the whitespace around a text. *)
Theorem render_ext (m m' : dict) :
  map render_view (filter has_text m) = map render_view (filter has_text m') ->
  render m = render m'.
Proof.
  intros H. now rewrite !render_eq, !render_lines_view, H.
Qed.

Lemma render_ext_witness :
  render ex_flag_map
  = render [ (lit "docs", Item.mk (lit "docs") None true);
             (lit "ci", Item.mk (lit "other") (Some (nl ++ lit " Build passed ")) false) ].
Proof.
  apply (render_ext ex_flag_map
           [ (lit "docs", Item.mk (lit "docs") None true);
             (lit "ci", Item.mk (lit "other") (Some (nl ++ lit " Build passed ")) false) ]).
  reflexivity.
Defined.

(** ** The scan and the parser *)

(** What the pattern matches at the start of a text: a start marker whose key
    is a lowercase letter followed by lowercase letters or hyphens, the
    shortest content after which an end marker begins, and that end marker;
    the groups are the two keys and the content. *)
Theorem section_match_iff (s : str) (caps : captures) (rest : str) :
  exec SECTION_RE [] [] s = Some (caps, rest)
  <-> exists k1 c k3,
        caps = [k1; c; k3] /\ start_key_ok k1 = true /\ end_key_ok k3 = true
        /\ ~ has_end_marker c /\ s = start_key k1 ++ c ++ end_key k3 ++ rest.
Proof.
  split; [apply exec_SECTION_RE_inv|].
  intros (k1 & c & k3 & -> & H1 & H3 & Hc & ->). now apply exec_SECTION_RE.
Qed.

Lemma find_existing_body_inv (self : BotCommentBuilder) (m : dict) :
  find_existing_body self = Ok m -> NoDup (map fst m) /\ Forall parsed_ok m.
Proof.
  unfold find_existing_body. destruct (find_bot_comment self).
  - apply parse_body_inv.
  - intros H. injection H as <-. split; constructor.
Qed.

(** Every map [find_existing_body] returns has distinct keys, each a
    lowercase letter followed by lowercase letters or hyphens, and under each
    key an item with that key, a text that is present, holds no end marker and
    begins with neither an asterisk nor a space, and a done flag that says
    whether the text contains the key's done marker. *)
Theorem find_existing_body_invariant (self : BotCommentBuilder) (m : dict) :
  find_existing_body self = Ok m ->
  NoDup (map fst m)
  /\ forall k item, In (k, item) m ->
       start_key_ok k = true /\ Item.key item = k
       /\ exists t, Item.text item = Some t
            /\ ~ has_end_marker t
            /\ starts_with_char 42 t = false /\ starts_with_char 32 t = false
            /\ Item.is_done item = str_in (done_key k) t.
Proof.
  unfold find_existing_body. destruct (find_bot_comment self) as [c|].
  - unfold parse_body. intros H.
    assert (G : NoDup (map fst m) /\
                Forall (fun e => parsed_ok e /\
                          forall t, Item.text (snd e) = Some t ->
                                    starts_with_char 32 t = false) m).
    { revert H. generalize (findall_In (body c)).
      assert (A : NoDup (map fst (@nil (str * Item.t)))) by constructor.
      assert (B : Forall (fun e => parsed_ok e /\
                            forall t, Item.text (snd e) = Some t ->
                                      starts_with_char 32 t = false)
                    (@nil (str * Item.t))) by constructor.
      revert A B. generalize (@nil (str * Item.t)) as acc.
      induction (findall SECTION_RE (body c)) as [|caps ms IH];
        intros acc A B Hms H.
      - injection H as <-. now split.
      - destruct (Hms caps (or_introl eq_refl)) as (k1 & x & k3 & -> & Hk & _ & Hx).
        rewrite collect_items_cons in H.
        destruct (str_eqb k1 k3); [|discriminate].
        apply IH in H; trivial.
        + now apply dict_set_NoDup.
        + apply dict_set_Forall; [exact B|]. split.
          * unfold parsed_ok, parsed_item. cbn [Item.key Item.text Item.is_done].
            repeat split; [exact Hk|]. exists (stored_text x).
            repeat split; [|apply stored_text_no_bullet].
            intros M. apply Hx. destruct (stored_text_inside x) as (u & w & ->).
            now apply has_end_marker_app.
          * cbn [snd parsed_item Item.text]. intros t E. injection E as <-.
            destruct (stored_text x) as [|ch r] eqn:S; [reflexivity|].
            apply stored_text_head in S. simpl. now apply N.eqb_neq.
        + intros caps H'. apply Hms. now right. }
    destruct G as [G1 G2]. split; [exact G1|]. intros k item Hin.
    rewrite Forall_forall in G2.
    destruct (G2 _ Hin) as [(Hk & Hkey & t & Ht & Hf & Hb & Hd) Hs].
    repeat split; trivial. exists t. repeat split; trivial. now apply Hs.
  - intros H. injection H as <-. split; [constructor|intros k item []].
Qed.

Lemma find_existing_body_invariant_witness :
  NoDup (map fst ex_body_items)
  /\ forall k item, In (k, item) ex_body_items ->
       start_key_ok k = true /\ Item.key item = k
       /\ exists t, Item.text item = Some t
            /\ ~ has_end_marker t
            /\ starts_with_char 42 t = false /\ starts_with_char 32 t = false
            /\ Item.is_done item = str_in (done_key k) t.
Proof.
  apply (find_existing_body_invariant ex_builder ex_body_items).
  vm_compute. reflexivity.
Defined.

Lemma fold_sections_update secs : forall acc,
  fold_left (fun d sec => dict_set (section_key sec) (snd (section_entry sec)) d)
    secs acc
  = dict_update acc (map section_entry secs).
Proof.
  induction secs as [|[[k c] gap] secs IH]; intros acc; [reflexivity|].
  cbn [fold_left map]. rewrite IH. reflexivity.
Qed.

Lemma section_entry_keys secs :
  map fst (map section_entry secs) = map section_key secs.
Proof.
  rewrite map_map. apply map_ext. now intros [[k c] gap].
Qed.

(** When a key has several sections in a body, the entry stored is made from
    the last of them. *)
Theorem duplicate_section_last_wins (lead : str) (pre post : list (str * str * str))
    (k c gap : str) :
  inert lead = true ->
  Forall section_ok (pre ++ (k, c, gap) :: post) ->
  (forall sec, In sec post -> section_key sec <> k) ->
  exists m,
    parse_body (lead ++ concat (map section_text (pre ++ (k, c, gap) :: post)))
    = Ok m
    /\ dict_get k m = Some (parsed_item k c).
Proof.
  intros Hl Hs Hpost. unfold parse_body.
  rewrite findall_inert by exact Hl.
  rewrite <- (app_nil_r (concat _)), findall_sections by exact Hs.
  rewrite app_nil_r, collect_sections, fold_sections_update.
  eexists. split; [reflexivity|].
  rewrite dict_get_update, map_app, last_binding_app. cbn [map last_binding].
  assert (N : last_binding k (map section_entry post) = None).
  { apply last_binding_None_iff. rewrite section_entry_keys. intros Hin.
    apply in_map_iff in Hin as (sec & E & Hi). now apply (Hpost sec Hi). }
  rewrite N. cbn [section_entry]. now rewrite str_eqb_refl.
Qed.

Lemma duplicate_section_last_wins_witness :
  exists m,
    parse_body ((BOT_COMMENT_START ++ nl) ++ concat (map section_text ex_twice))
    = Ok m
    /\ dict_get (lit "ci") m
       = Some (parsed_item (lit "ci") (nl ++ lit " * Build passed")).
Proof.
  apply (duplicate_section_last_wins (BOT_COMMENT_START ++ nl)
           [ (lit "ci", nl ++ lit " * Build pending", nl);
             (lit "docs", lit "Docs built", []) ]
           [] (lit "ci") (nl ++ lit " * Build passed") (lit " bye")).
  - reflexivity.
  - repeat constructor; try reflexivity; no_end_marker.
  - intros sec [].
Defined.

Lemma no_lt_inert j : no_lt j = true -> inert j = true.
Proof.
  induction j as [|c j IH]; [reflexivity|].
  unfold no_lt. simpl forallb. rewrite andb_true_iff, negb_true_iff.
  intros [Hc Hj]. change (inert (c :: j)) with (clash MARK (c :: j) && inert j).
  rewrite IH by exact Hj. rewrite andb_true_r.
  change (clash MARK (c :: j))
    with (if 60 =? c then clash (lit "!--bot-comment-") j else true).
  now rewrite N.eqb_sym, Hc.
Qed.

(** Text without [<] in front of a body does not change what is parsed. *)
Theorem parse_ignores_plain_lead (lead s : str) :
  no_lt lead = true -> parse_body (lead ++ s) = parse_body s.
Proof.
  intros H. unfold parse_body. now rewrite findall_inert by now apply no_lt_inert.
Qed.

Lemma parse_ignores_plain_lead_witness :
  parse_body (lit "Hello, this is the status of your PR. " ++ ex_body)
  = parse_body ex_body.
Proof.
  apply (parse_ignores_plain_lead (lit "Hello, this is the status of your PR. ") ex_body).
  reflexivity.
Defined.

Lemma findall_nil_iff s :
  findall SECTION_RE s = [] <->
  forall a b, s = a ++ b -> exec SECTION_RE [] [] b = None.
Proof.
  induction s as [|c s IH].
  - split.
    + intros _ a b E. symmetry in E. apply app_eq_nil in E as [_ ->]. reflexivity.
    + intros _. reflexivity.
  - split.
    + intros H.
      assert (N : exec SECTION_RE [] [] (c :: s) = None).
      { destruct (exec SECTION_RE [] [] (c :: s)) as [[caps rest]|] eqn:E;
          [|reflexivity].
        rewrite (findall_match _ exec_SECTION_RE_progress _ _ _ E) in H.
        discriminate. }
      rewrite findall_skip in H by exact N.
      intros [|x a] b E; simpl in E.
      * now subst b.
      * injection E as _ E. exact (proj1 IH H a b E).
    + intros H. rewrite findall_skip by exact (H [] (c :: s) eq_refl).
      apply IH. intros a b E. apply (H (c :: a) b). simpl. now rewrite E.
Qed.

Lemma dict_set_not_nil k v (d : dict) : dict_set k v d <> [].
Proof.
  destruct d as [|[k' v'] d]; simpl; [discriminate|].
  destruct (str_eqb k k'); discriminate.
Qed.

Lemma collect_items_Ok_nil ms : forall acc,
  collect_items ms acc = Ok [] -> ms = [] /\ acc = [].
Proof.
  induction ms as [|caps ms IH]; intros acc H.
  - injection H as ->. now split.
  - exfalso. destruct caps as [|a [|b [|c [|d l]]]]; try discriminate H.
    rewrite collect_items_cons in H. destruct (str_eqb a c); [|discriminate].
    apply IH in H as [_ H]. now apply dict_set_not_nil in H.
Qed.

(** The parser returns the empty map exactly when the body holds no
    delimited section. *)
Theorem parse_empty_iff (s : str) : parse_body s = Ok [] <-> ~ has_section s.
Proof.
  unfold parse_body. split.
  - intros H (a & k1 & c & k3 & rest & -> & H1 & H3 & Hc).
    apply collect_items_Ok_nil in H as [H _].
    pose proof (proj1 (findall_nil_iff _) H a _ eq_refl) as N.
    rewrite exec_SECTION_RE in N by assumption. discriminate.
  - intros H.
    assert (E : findall SECTION_RE s = []).
    { apply findall_nil_iff. intros a b ->.
      destruct (exec SECTION_RE [] [] b) as [[caps rest]|] eqn:E; [|reflexivity].
      exfalso. apply H.
      apply exec_SECTION_RE_inv in E as (k1 & c & k3 & _ & H1 & H3 & Hc & ->).
      now exists a, k1, c, k3, rest. }
    now rewrite E.
Qed.

(** ** Errors and requests *)



(** A mismatched pair the scan does not reach blocks nothing: with the start
    marker of [foo] inside the section of [aa], [post_items] sends its
    request and [is_done] answers. *)
Example nested_mismatch_not_detected :
  let self := mkBuilder 1234 [mkComment (lit "tvm-bot") ex_nested_body 42]
                (lit "alice") (lit "tvm-bot") in
  has_mismatched_section (body (mkComment (lit "tvm-bot") ex_nested_body 42))
  /\ (exists sent, post_items self ex_env []
                   = ([patch (lit "issues/comments/42") sent], Ok tt))
  /\ is_done self (lit "foo") = Ok false.
Proof.
  intros self. split; [|split].
  - exists (BOT_COMMENT_START ++ start_key (lit "aa")), (lit "foo"), (lit "x"),
      (lit "aa"), [].
    repeat split; try reflexivity; [no_end_marker|discriminate].
  - eexists. vm_compute. reflexivity.
  - vm_compute. reflexivity.
Qed.

(** Whatever [post_items] sends, it sends alone, and its body carries the
    leading sentinel: posted under the bot's login it is a comment that
    [find_bot_comment] accepts. *)
Theorem sent_body_recognised (self : BotCommentBuilder) (env : Env)
    (items : list Item.t) (r : request) (id : Z) :
  In r (fst (post_items self env items)) ->
  fst (post_items self env items) = [r]
  /\ is_bot_comment self (mkComment (bot_login self) (request_body r) id) = true.
Proof.
  unfold post_items. destruct (find_existing_body self) as [m|e];
    [|intros []].
  cbn [fst]. unfold _post_comment.
  destruct (existsb _ _); [intros []|].
  destruct (str_eqb (getenv _ _) _); [intros []|].
  destruct (find_bot_comment self); intros [<-|[]]; (split; [reflexivity|]);
    unfold is_bot_comment; cbn [author_login body request_body];
    now rewrite str_eqb_refl, render_has_sentinel.
Qed.

Lemma sent_body_recognised_witness :
  let r := patch (lit "issues/comments/42") (render (update_items ex_items ex_body_items)) in
  fst (post_items ex_builder ex_env ex_items) = [r]
  /\ is_bot_comment ex_builder (mkComment (bot_login ex_builder) (request_body r) 99)
     = true.
Proof.
  intros r. apply (sent_body_recognised ex_builder ex_env ex_items r 99).
  vm_compute. left. reflexivity.
Defined.

(** Reading back what was sent: when the merged map has only entries the
    renderer writes and the parser reads as they are, the body of the one
    request [post_items] sends parses to the merged map, texts trimmed. *)
Theorem post_items_reads_back (self : BotCommentBuilder) (env : Env)
    (items : list Item.t) (m0 : dict) :
  find_existing_body self = Ok m0 ->
  ~ suppressed self env ->
  Forall renderable (update_items items m0) ->
  exists r,
    post_items self env items = ([r], Ok tt)
    /\ parse_body (request_body r) = Ok (map stored_entry (update_items items m0)).
Proof.
  intros H0 Hs Hr. apply not_suppressed in Hs as [H1 H2].
  pose proof (find_existing_body_inv _ _ H0) as [Hnd _].
  assert (P : parse_body (render (update_items items m0))
              = Ok (map stored_entry (update_items items m0))).
  { apply parse_rendered; [|exact Hr].
    rewrite update_items_pending. now apply dict_update_NoDup. }
  unfold post_items, _post_comment. rewrite H0, H1, H2.
  destruct (find_bot_comment self); eexists; (split; [reflexivity|exact P]).
Qed.

Lemma post_items_reads_back_witness :
  exists r,
    post_items ex_builder ex_env ex_items = ([r], Ok tt)
    /\ parse_body (request_body r)
       = Ok (map stored_entry (update_items ex_items ex_body_items)).
Proof.
  apply (post_items_reads_back ex_builder ex_env ex_items ex_body_items).
  - vm_compute. reflexivity.
  - intros [H|H]; [contradiction|discriminate H].
  - repeat constructor; try reflexivity.
    + exists (lit "Build passed"). repeat split; try reflexivity. no_end_marker.
    + exists (lit "Docs built" ++ nl ++ lit "<!--bot-item-docs-done-->").
      repeat split; try reflexivity. no_end_marker.
    + exists (lit "Lint passed"). repeat split; try reflexivity. no_end_marker.
Defined.

(** [is_done] answers [True] exactly when the section of the key is in the
    parsed map and its stored text contains the key's done marker. *)
Theorem is_done_iff_marker (self : BotCommentBuilder) (key : str) (m : dict) :
  find_existing_body self = Ok m ->
  (is_done self key = Ok true
   <-> exists item t, dict_get key m = Some item /\ Item.text item = Some t
                      /\ str_in (done_key key) t = true).
Proof.
  intros H. pose proof (find_existing_body_inv _ _ H) as [_ Hok].
  unfold is_done. rewrite H.
  destruct (dict_get key m) as [item|] eqn:G.
  - apply dict_get_In in G. rewrite Forall_forall in Hok.
    destruct (Hok _ G) as (_ & _ & t & Ht & _ & _ & Hd). split.
    + intros E. injection E as E. exists item, t. repeat split; congruence.
    + intros (item' & t' & E & Ht' & S). injection E as <-.
      rewrite Hd. congruence.
  - split; [discriminate|]. intros (item & t & E & _). discriminate.
Qed.

Lemma is_done_iff_marker_witness :
  is_done ex_builder (lit "docs") = Ok true
  <-> exists item t, dict_get (lit "docs") ex_body_items = Some item
                     /\ Item.text item = Some t
                     /\ str_in (done_key (lit "docs")) t = true.
Proof.
  apply (is_done_iff_marker ex_builder (lit "docs") ex_body_items).
  vm_compute. reflexivity.
Defined.

Lemma lit_inj (a b : string) : lit a = lit b -> a = b.
Proof.
  unfold lit. intros H. apply (f_equal (map ascii_of_N)) in H.
  rewrite !map_map in H.
  rewrite !(map_ext _ (fun x => x) ascii_N_embedding), !map_id in H.
  apply (f_equal string_of_list_ascii) in H.
  now rewrite !string_of_list_ascii_of_string in H.
Qed.

Lemma to_int_not_nil (z : Z) :
  Z.to_int z <> Decimal.Pos Decimal.Nil /\ Z.to_int z <> Decimal.Neg Decimal.Nil.
Proof.
  split; intros E; pose proof (DecimalZ.of_to z) as R; rewrite E in R;
    simpl in R; subst z; discriminate E.
Qed.

Lemma str_of_int_inj (a b : Z) : str_of_int a = str_of_int b -> a = b.
Proof.
  unfold str_of_int. intros H. apply lit_inj in H.
  apply (f_equal NilZero.int_of_string) in H.
  destruct (to_int_not_nil a) as [A1 A2]. destruct (to_int_not_nil b) as [B1 B2].
  rewrite !NilZero.isi in H by assumption. injection H as H.
  apply (f_equal Z.of_int) in H. now rewrite !DecimalZ.of_to in H.
Qed.

(** Different pull requests and different comments are addressed by different
    URLs: the number written into the address determines it. *)
Theorem request_urls_distinct (a b : Z) :
  a <> b ->
  lit "issues/" ++ str_of_int a ++ lit "/comments"
  <> lit "issues/" ++ str_of_int b ++ lit "/comments"
  /\ lit "issues/comments/" ++ str_of_int a <> lit "issues/comments/" ++ str_of_int b.
Proof.
  intros Hne. split; intros E; apply Hne, str_of_int_inj.
  - apply app_inv_head in E. now apply app_inv_tail in E.
  - now apply app_inv_head in E.
Qed.

Lemma request_urls_distinct_witness :
  lit "issues/" ++ str_of_int 42 ++ lit "/comments"
  <> lit "issues/" ++ str_of_int (-42) ++ lit "/comments"
  /\ lit "issues/comments/" ++ str_of_int 42 <> lit "issues/comments/" ++ str_of_int (-42).
Proof.
  apply (request_urls_distinct 42 (-42)). discriminate.
Defined.

Lemma first_bot_comment_login (self self' : BotCommentBuilder) cs :
  bot_login self = bot_login self' ->
  first_bot_comment self cs = first_bot_comment self' cs.
Proof.
  intros E. induction cs as [|c cs IH]; [reflexivity|].
  cbn [first_bot_comment]. unfold is_bot_comment. now rewrite E, IH.
Qed.

Lemma first_bot_comment_app (self : BotCommentBuilder) cs cs' :
  first_bot_comment self (cs ++ cs')
  = match first_bot_comment self cs with
    | Some c => Some c
    | None => first_bot_comment self cs'
    end.
Proof.
  induction cs as [|c cs IH]; [reflexivity|].
  cbn [app first_bot_comment]. now destruct (is_bot_comment self c).
Qed.

(** Comments that come after the located one never change it, and while no
    comment is located the search goes on in those that follow. *)
Theorem located_comment_stable (n : Z) (cs cs' : list Comment) (a b : str) :
  find_bot_comment (mkBuilder n (cs ++ cs') a b)
  = match find_bot_comment (mkBuilder n cs a b) with
    | Some c => Some c
    | None => find_bot_comment (mkBuilder n cs' a b)
    end.
Proof.
  unfold find_bot_comment. cbn [comment_data]. rewrite first_bot_comment_app.
  rewrite (first_bot_comment_login (mkBuilder n (cs ++ cs') a b)
             (mkBuilder n cs a b) cs eq_refl).
  now rewrite (first_bot_comment_login (mkBuilder n (cs ++ cs') a b)
                 (mkBuilder n cs' a b) cs' eq_refl).
Qed.

(** ** What the bot reads back from its own comment *)

Lemma render_lines_sections (m : dict) :
  concat (map render_line m)
  = concat (map section_text (map rendered_section (filter has_text m))).
Proof.
  induction m as [|[k item] m IH]; [reflexivity|].
  cbn [map concat filter]. unfold has_text at 1. cbn [snd].
  change (render_line (k, item))
    with (match Item.text item with
          | None => []
          | Some content =>
              start_key k ++ nl ++ lit " * " ++ strip content ++ end_key k
          end).
  destruct (Item.text item) as [t|] eqn:Ht; [|exact IH].
  cbn [map concat]. rewrite IH. f_equal.
  unfold rendered_section, section_text. rewrite Ht.
  now rewrite app_nil_r, <- !app_assoc.
Qed.

Lemma filter_keys_NoDup (f : str * Item.t -> bool) (m : dict) :
  NoDup (map fst m) -> NoDup (map fst (filter f m)).
Proof.
  induction m as [|e m IH]; [trivial|]. simpl. intros H.
  inversion H as [|? ? Hn Hm]; subst. destruct (f e); [|now apply IH].
  simpl. constructor; [|now apply IH]. intros Hin. apply Hn.
  apply in_map_iff in Hin as (x & <- & Hx). apply filter_In in Hx as [Hx _].
  now apply in_map.
Qed.

(** The bot can always read its own comment when the keys are of the
    start-marker class and no text holds an end marker: the rendered body
    parses without error, to one entry per entry that has a text, in order,
    with the bullet, asterisks and spaces that lead the trimmed text removed
    and the done flag computed from what is left. *)
Theorem rendered_body_parses (m : dict) :
  NoDup (map fst m) ->
  (forall k item, In (k, item) m ->
     start_key_ok k = true
     /\ forall t, Item.text item = Some t -> ~ has_end_marker t) ->
  parse_body (render m) = Ok (map reread_entry (filter has_text m)).
Proof.
  intros Hnd Hm. unfold parse_body.
  rewrite render_eq, findall_inert by exact inert_HEADER.
  rewrite render_lines_sections, findall_sections, findall_FOOTER, app_nil_r.
  - rewrite collect_sections, fold_dict_set_fresh.
    + simpl. now rewrite map_map.
    + simpl. rewrite map_map, (map_ext _ fst rendered_section_key).
      now apply filter_keys_NoDup.
  - apply Forall_forall. intros sec Hs.
    apply in_map_iff in Hs as ([k item] & <- & He).
    apply filter_In in He as [He Ht]. destruct (Hm k item He) as [Hk Hfree].
    unfold has_text in Ht. cbn [snd] in Ht. unfold rendered_section, section_ok.
    destruct (Item.text item) as [t|]; [|discriminate].
    repeat split; [exact Hk|]. apply rendered_line_no_end_marker. now apply Hfree.
Qed.

Lemma rendered_body_parses_witness :
  parse_body (render ex_loose_map)
  = Ok (map reread_entry (filter has_text ex_loose_map)).
Proof.
  apply (rendered_body_parses ex_loose_map).
  - repeat constructor; simpl; intuition discriminate.
  - intros k item H. simpl in H.
    repeat (destruct H as [H|H]; [injection H as <- <-|]); try contradiction;
      (split; [reflexivity|]); intros t Ht; simpl in Ht; try discriminate Ht;
      injection Ht as <-; no_end_marker.
Defined.

Example reread_loose_map :
  map reread_entry (filter has_text ex_loose_map)
  = [ (lit "ci", Item.mk (lit "ci") (Some (lit "Build passed**")) false) ].
Proof. vm_compute. reflexivity. Qed.

Lemma dict_get_stored_None k (m : dict) :
  dict_get k m = None -> dict_get k (map stored_entry m) = None.
Proof.
  rewrite !dict_get_None_iff. now rewrite stored_entry_keys.
Qed.

(** After a publication, the done status is the one that was sent: in a new
    run whose located comment has the body of the request, [is_done] answers
    for every key the done flag that key has in the merged map, and [False]
    for a key the merged map does not have. *)
Theorem done_after_publish (self self' : BotCommentBuilder) (env : Env)
    (items : list Item.t) (m0 : dict) (r : request) (c : Comment) (key : str) :
  find_existing_body self = Ok m0 ->
  Forall renderable (update_items items m0) ->
  In r (fst (post_items self env items)) ->
  find_bot_comment self' = Some c ->
  body c = request_body r ->
  is_done self' key
  = Ok (match dict_get key (update_items items m0) with
        | Some item => Item.is_done item
        | None => false
        end).
Proof.
  intros H0 Hr Hin Hc Hb.
  pose proof (find_existing_body_inv _ _ H0) as [Hnd _].
  assert (B : request_body r = render (update_items items m0)).
  { unfold post_items in Hin. rewrite H0 in Hin. cbn [fst] in Hin.
    unfold _post_comment in Hin.
    destruct (existsb _ _); [contradiction|].
    destruct (str_eqb (getenv _ _) _); [contradiction|].
    destruct (find_bot_comment self); destruct Hin as [<-|[]]; reflexivity. }
  unfold is_done, find_existing_body. rewrite Hc, Hb, B.
  rewrite parse_rendered; [|rewrite update_items_pending;
                            now apply dict_update_NoDup|exact Hr].
  destruct (dict_get key (update_items items m0)) as [item|] eqn:G.
  - now rewrite (dict_get_stored _ _ _ G).
  - now rewrite (dict_get_stored_None _ _ G).
Qed.

Lemma done_after_publish_witness :
  let sent := render (update_items ex_items ex_body_items) in
  is_done (mkBuilder 1234 [mkComment (lit "tvm-bot") sent 42] (lit "alice") (lit "tvm-bot"))
          (lit "docs")
  = Ok (match dict_get (lit "docs") (update_items ex_items ex_body_items) with
        | Some item => Item.is_done item
        | None => false
        end).
Proof.
  intros sent.
  apply (done_after_publish ex_builder
           (mkBuilder 1234 [mkComment (lit "tvm-bot") sent 42] (lit "alice") (lit "tvm-bot"))
           ex_env ex_items ex_body_items
           (patch (lit "issues/comments/42") sent)
           (mkComment (lit "tvm-bot") sent 42) (lit "docs")).
  - vm_compute. reflexivity.
  - repeat constructor; try reflexivity.
    + exists (lit "Build passed"). repeat split; try reflexivity. no_end_marker.
    + exists (lit "Docs built" ++ nl ++ lit "<!--bot-item-docs-done-->").
      repeat split; try reflexivity. no_end_marker.
    + exists (lit "Lint passed"). repeat split; try reflexivity. no_end_marker.
  - vm_compute. left. reflexivity.
  - vm_compute. reflexivity.
  - reflexivity.
Defined.
